(** * Trigram language model (ngram_model.py): embedding and properties

    A shallow embedding of [TrigramModel] from
    [ml-assignment/src/ngram_model.py], and of the text clean-up that feeds
    it, [clean_gutenberg_text] and [preprocess_text_for_training] from
    [src/utils.py].

    Modelling choices.
    - A Python [str] is a [string]; a character is a code point in
      U+0000..U+00FF (Latin-1).  On that range [str.lower] acts character by
      character, and [str.isspace], [str.strip], [str.split] and the regular
      expression class [\s] all use the same whitespace predicate.
    - A Python [dict] is an association list in insertion order without
      repeated keys; a [defaultdict] creates the missing key on access.
    - A Python [int] count is a [nat]; the threshold and [max_length] are [Z].
    - The float quotient [count / total_count] is the exact rational in [Q].
    - The module-level random source is an explicit state: a stream of
      values in [0,1) and the number of draws made so far. *)

From Stdlib Require Import Strings.String Strings.Ascii Lists.List.
From Stdlib Require Import NArith ZArith QArith Arith Bool Lia.
Import ListNotations.

Open Scope string_scope.
Open Scope list_scope.
Open Scope nat_scope.

(** ** Characters and the string primitives used by the model *)

Module Str.

(** [str.isspace] on one code point below U+0100: TAB..CR, FS..US, SPACE,
    NEL and NBSP. *)
Definition isspace (c : ascii) : bool :=
  let n := N_of_ascii c in
  (((9 <=? n) && (n <=? 13)) || ((28 <=? n) && (n <=? 31)) ||
   (n =? 32) || (n =? 133) || (n =? 160))%N.

(** [str.lower] on one code point below U+0100: A..Z and the Latin-1
    capitals U+00C0..U+00DE (except the multiplication sign U+00D7) move up
    by 32. *)
Definition lower_char (c : ascii) : ascii :=
  let n := N_of_ascii c in
  if (((65 <=? n) && (n <=? 90)) || ((192 <=? n) && (n <=? 214)) ||
      ((216 <=? n) && (n <=? 222)))%N
  then ascii_of_N (n + 32) else c.

(** [text.lower()] *)
Fixpoint lower (s : string) : string :=
  match s with
  | EmptyString => EmptyString
  | String c r => String (lower_char c) (lower r)
  end.

(** [re.sub(r'\s+', ' ', text)]: every maximal run of whitespace becomes one
    space.  [in_run] tells that the previous character was whitespace, so
    the run's space has been written already. *)
Fixpoint sub_ws_from (in_run : bool) (s : string) : string :=
  match s with
  | EmptyString => EmptyString
  | String c r =>
      if isspace c
      then if in_run then sub_ws_from true r
           else String " " (sub_ws_from true r)
      else String c (sub_ws_from false r)
  end.

Definition sub_ws (s : string) : string := sub_ws_from false s.

(** [text.lstrip()], [text.rstrip()] and [text.strip()] *)
Fixpoint lstrip (s : string) : string :=
  match s with
  | EmptyString => EmptyString
  | String c r => if isspace c then lstrip r else s
  end.

Fixpoint rstrip (s : string) : string :=
  match s with
  | EmptyString => EmptyString
  | String c r =>
      match rstrip r with
      | EmptyString => if isspace c then EmptyString else String c EmptyString
      | r' => String c r'
      end
  end.

Definition strip (s : string) : string := lstrip (rstrip s).

(** [text.split()]: the maximal runs of characters that are not whitespace,
    in order.  A character that is not whitespace either continues into the
    word that starts right after it or ends a word by itself. *)
Definition starts_word (s : string) : bool :=
  match s with
  | EmptyString => false
  | String c _ => negb (isspace c)
  end.

Fixpoint split (s : string) : list string :=
  match s with
  | EmptyString => []
  | String c r =>
      if isspace c then split r
      else if starts_word r
           then match split r with
                | w :: ws => String c w :: ws
                | [] => [String c EmptyString]
                end
           else String c EmptyString :: split r
  end.

(** [text.split(" ")]: the pieces between single spaces, empty pieces kept. *)
Fixpoint split_on (sep : ascii) (s : string) : list string :=
  match s with
  | EmptyString => [EmptyString]
  | String c r =>
      if Ascii.eqb c sep then EmptyString :: split_on sep r
      else match split_on sep r with
           | w :: ws => String c w :: ws
           | [] => [String c EmptyString]
           end
  end.

(** [" ".join(words)] *)
Definition join (ws : list string) : string := String.concat " " ws.

(** Truth value of a string: [not text] holds of the empty string only. *)
Definition is_empty (s : string) : bool :=
  match s with EmptyString => true | _ => false end.

End Str.

(** ** Python dictionaries in insertion order *)

Module Dict.

Section Ops.
Context {V : Type}.

(** [k in d] and [d.get(k)] *)
Fixpoint get (k : string) (d : list (string * V)) : option V :=
  match d with
  | [] => None
  | (k', v) :: r => if String.eqb k k' then Some v else get k r
  end.

Definition mem (k : string) (d : list (string * V)) : bool :=
  match get k d with Some _ => true | None => false end.

(** [d[k] = v]: an existing key keeps its place, a new key goes last. *)
Fixpoint set (k : string) (v : V) (d : list (string * V))
  : list (string * V) :=
  match d with
  | [] => [(k, v)]
  | (k', v') :: r =>
      if String.eqb k k' then (k', v) :: r else (k', v') :: set k v r
  end.

(** [d[k]] on a [defaultdict] whose factory returns [dflt]: the value
    read.  The key it creates is written back by the caller's [set]. *)
Definition get_default (dflt : V) (k : string) (d : list (string * V)) : V :=
  match get k d with Some v => v | None => dflt end.

Definition keys (d : list (string * V)) : list string := map fst d.
Definition values (d : list (string * V)) : list V := map snd d.
End Ops.

(** [d[k] += 1] on a [defaultdict(int)] *)
Definition incr (k : string) (d : list (string * nat)) : list (string * nat) :=
  set k (get_default 0 k d + 1) d.

(** [sum(d.values())] *)
Definition total (d : list (string * nat)) : nat :=
  fold_left Nat.add (values d) 0.

End Dict.

(** ** The random source *)

(** [random.random()] read from a stream; [draws] counts the calls made. *)
Record Random : Type := mkRandom {
  draws : nat;
  source : nat -> Q
}.

Definition random (g : Random) : Q * Random :=
  (source g (draws g), mkRandom (S (draws g)) (source g)).

(** [itertools.accumulate(weights)] *)
Fixpoint accumulate_from (acc : Q) (ws : list Q) : list Q :=
  match ws with
  | [] => []
  | w :: r => (acc + w)%Q :: accumulate_from (acc + w)%Q r
  end.

Definition accumulate (ws : list Q) : list Q :=
  match ws with
  | [] => []
  | w :: r => w :: accumulate_from w r
  end.

(** [bisect.bisect(a, x, 0, hi)] on a non-decreasing list: the number of
    leading entries, among the first [hi], that are at most [x]. *)
Fixpoint bisect (a : list Q) (x : Q) (hi : nat) : nat :=
  match hi, a with
  | S h, c :: r => if Qle_bool c x then S (bisect r x h) else 0
  | _, _ => 0
  end.

(** [random.choices(population, weights=weights, k=1)[0]] for a non-empty
    population whose weights have a positive sum, the case in which the
    library does not raise: one call of [random()], scaled by the total
    weight and located in the cumulative weights.  The library adds and
    compares floats; here the weights are exact rationals, so on a boundary
    of the cumulative weights the word located can differ from the
    library's.  The properties below use only that the result is a member
    of the population and that exactly one value is drawn. *)
Definition choices1 (population : list string) (weights : list Q)
  (g : Random) : string * Random :=
  let cum_weights := accumulate weights in
  let total := last cum_weights 0%Q in
  let hi := length population - 1 in
  let (r, g') := random g in
  (nth (bisect cum_weights (r * total)%Q hi) population EmptyString, g').

(** ** The model *)

Definition START_TOKEN : string := "<start>".
Definition END_TOKEN : string := "<end>".
Definition UNK_TOKEN : string := "<unk>".

Definition Counts := list (string * list (string * list (string * nat))).

Record TrigramModel : Type := mkModel {
  counts : Counts;
  vocab : list (string * nat);
  unk_threshold : Z;
  trained : bool
}.

(** [TrigramModel(unk_threshold)] *)
Definition init (unk_threshold : Z) : TrigramModel :=
  mkModel [] [] unk_threshold false.

(** [token in [a, b, ...]] *)
Definition in_list (token : string) (l : list string) : bool :=
  existsb (String.eqb token) l.

Definition _clean_text (text : string) : string :=
  let text := Str.lower text in
  let text := Str.sub_ws text in
  Str.strip text.

Definition _tokenize (text : string) : list string := Str.split text.

Definition _add_padding (tokens : list string) : list string :=
  match tokens with
  | [] => []
  | _ => [START_TOKEN; START_TOKEN] ++ tokens ++ [END_TOKEN]
  end.

(** First pass of [_handle_unknown_words]: the frequency table. *)
Definition count_words (tokens : list string) : list (string * nat) :=
  fold_left
    (fun word_counts token =>
       if negb (in_list token [START_TOKEN; END_TOKEN; UNK_TOKEN])
       then Dict.incr token word_counts else word_counts)
    tokens [].

(** Second pass: one token, against the table and the threshold; the
    vocabulary is threaded through.  The read [word_counts[token]] of an
    uncounted token gives 0; the key it creates in the local table is never
    looked at otherwise. *)
Definition replace_word (word_counts : list (string * nat)) (threshold : Z)
  (st : list string * list (string * nat)) (token : string)
  : list string * list (string * nat) :=
  let (processed_tokens, vocab) := st in
  if in_list token [START_TOKEN; END_TOKEN]
  then (processed_tokens ++ [token], vocab)
  else if (Z.of_nat (Dict.get_default 0%nat token word_counts) <=? threshold)%Z
       then (processed_tokens ++ [UNK_TOKEN], Dict.incr UNK_TOKEN vocab)
       else (processed_tokens ++ [token], Dict.incr token vocab).

Definition _handle_unknown_words (threshold : Z) (vocab : list (string * nat))
  (tokens : list string) : list string * list (string * nat) :=
  let word_counts := count_words tokens in
  fold_left (replace_word word_counts threshold) tokens ([], vocab).

(** [self.counts[w1][w2][w3] += 1] *)
Definition incr_trigram (w1 w2 w3 : string) (c : Counts) : Counts :=
  let d1 := Dict.get_default [] w1 c in
  let d2 := Dict.get_default [] w2 d1 in
  Dict.set w1 (Dict.set w2 (Dict.incr w3 d2) d1) c.

(** The counting loop of [fit]: [for i in range(len(padded_tokens) - 2)]. *)
Definition count_trigrams (padded_tokens : list string) (c : Counts) : Counts :=
  fold_left
    (fun c i =>
       let w1 := nth i padded_tokens EmptyString in
       let w2 := nth (i + 1) padded_tokens EmptyString in
       let w3 := nth (i + 2) padded_tokens EmptyString in
       incr_trigram w1 w2 w3 c)
    (seq 0 (length padded_tokens - 2)) c.

(** The padded token sequence that [fit] counts over. *)
Definition padded_tokens_of (threshold : Z) (vocab : list (string * nat))
  (text : string) : list string :=
  _add_padding
    (fst (_handle_unknown_words threshold vocab (_tokenize (_clean_text text)))).

Definition fit (m : TrigramModel) (text : string) : TrigramModel :=
  if Str.is_empty text || Str.is_empty (Str.strip text)
  then mkModel (counts m) (vocab m) (unk_threshold m) true
  else
    let cleaned_text := _clean_text text in
    let tokens := _tokenize cleaned_text in
    let (tokens, vocab') :=
      _handle_unknown_words (unk_threshold m) (vocab m) tokens in
    let padded_tokens := _add_padding tokens in
    mkModel (count_trigrams padded_tokens (counts m)) vocab'
            (unk_threshold m) true.

(** [count / total_count] *)
Definition ratio (count total_count : nat) : Q :=
  (inject_Z (Z.of_nat count) / inject_Z (Z.of_nat total_count))%Q.

Definition _get_next_word_probabilities (m : TrigramModel) (w1 w2 : string)
  : list (string * Q) :=
  if negb (Dict.mem w1 (counts m)) ||
     negb (Dict.mem w2 (Dict.get_default [] w1 (counts m)))
  then []
  else
    let trigram_context :=
      Dict.get_default [] w2 (Dict.get_default [] w1 (counts m)) in
    let total_count := Dict.total trigram_context in
    if total_count =? 0 then []
    else map (fun '(word, count) => (word, ratio count total_count))
             trigram_context.

Definition _sample_next_word (m : TrigramModel) (w1 w2 : string) (g : Random)
  : string * Random :=
  let probabilities := _get_next_word_probabilities m w1 w2 in
  match probabilities with
  | [] => (END_TOKEN, g)
  | _ =>
      let words := map fst probabilities in
      let probs := map snd probabilities in
      choices1 words probs g
  end.

(** The loop of [generate]; [remaining] is [max_length - length]. *)
Fixpoint generate_loop (remaining : nat) (m : TrigramModel) (w1 w2 : string)
  (generated_words : list string) (g : Random) : list string * Random :=
  match remaining with
  | O => (generated_words, g)
  | S remaining' =>
      let (next_word, g') := _sample_next_word m w1 w2 g in
      if String.eqb next_word END_TOKEN then (generated_words, g')
      else
        let generated_words' :=
          if negb (in_list next_word [START_TOKEN; END_TOKEN; UNK_TOKEN])
          then generated_words ++ [next_word]
          else if String.eqb next_word UNK_TOKEN
               then generated_words ++ [next_word]
               else generated_words in
        generate_loop remaining' m w2 next_word generated_words' g'
  end.

(** The words [generate] joins: the value of [generated_words] at the
    [return], with the random source left behind.  [None] is returned where
    [generate] returns before the list exists. *)
Definition generate_words (m : TrigramModel) (max_length : Z)
  (seed_text : option (string * string)) (g : Random)
  : option (list string) * Random :=
  if negb (trained m) then (None, g)
  else if match counts m with [] => true | _ => false end then (None, g)
  else
    let (w1, w2) :=
      match seed_text with
      | None => (START_TOKEN, START_TOKEN)
      | Some p => p
      end in
    let (ws, g') := generate_loop (Z.to_nat max_length) m w1 w2 [] g in
    (Some ws, g').

Definition generate (m : TrigramModel) (max_length : Z)
  (seed_text : option (string * string)) (g : Random) : string * Random :=
  match generate_words m max_length seed_text g with
  | (None, g') => (EmptyString, g')
  | (Some ws, g') => (Str.join ws, g')
  end.

(** States of a model object: constructed, then any number of [fit] calls. *)
Inductive reachable : TrigramModel -> Prop :=
  | reach_init : forall threshold, reachable (init threshold)
  | reach_fit : forall m text, reachable m -> reachable (fit m text).

(** ** Auxiliary predicates used in the statements and proofs *)

(** A string in which whitespace occurs only as isolated single spaces;
    [prev_ws] tells that the position before the string holds whitespace. *)
Fixpoint single_spaced (prev_ws : bool) (s : string) : bool :=
  match s with
  | EmptyString => true
  | String c r =>
      if Str.isspace c
      then Ascii.eqb c " " && negb prev_ws && single_spaced true r
      else single_spaced false r
  end.


(** A string made of whitespace only, and a string without whitespace. *)
Fixpoint all_space (s : string) : bool :=
  match s with
  | EmptyString => true
  | String c r => Str.isspace c && all_space r
  end.

Fixpoint no_space (s : string) : bool :=
  match s with
  | EmptyString => true
  | String c r => negb (Str.isspace c) && no_space r
  end.

(** What [split()] returns as a word: not empty, no whitespace inside. *)
Definition wordlike (w : string) : bool :=
  negb (Str.is_empty w) && no_space w.

(** The stored count of one trigram and the total mass of one context:
    [self.counts[w1][w2][w3]] and [sum(self.counts[w1][w2].values())], read
    without creating keys. *)
Definition context_of (c : Counts) (w1 w2 : string) : list (string * nat) :=
  Dict.get_default [] w2 (Dict.get_default [] w1 c).

Definition trigram_count (c : Counts) (w1 w2 w3 : string) : nat :=
  Dict.get_default 0 w3 (context_of c w1 w2).

Definition context_total (c : Counts) (w1 w2 : string) : nat :=
  Dict.total (context_of c w1 w2).

(** The number of positions of a token sequence at which [w1], [w2] stand
    with a third token right after them. *)
Fixpoint context_occurrences (w1 w2 : string) (l : list string) : nat :=
  match l with
  | [] => 0
  | a :: tl =>
      match tl with
      | b :: _ :: _ =>
          if String.eqb a w1 && String.eqb b w2 then 1 else 0
      | _ => 0
      end + context_occurrences w1 w2 tl
  end.

(** The frequency that the first pass of [_handle_unknown_words] records for
    a token: [word_counts[token]]. *)
Definition raw_frequency (tokens : list string) (token : string) : nat :=
  Dict.get_default 0 token (count_words tokens).

(** What the second pass writes for one token. *)
Definition substitute (word_counts : list (string * nat)) (threshold : Z)
  (token : string) : string :=
  if in_list token [START_TOKEN; END_TOKEN] then token
  else if (Z.of_nat (Dict.get_default 0%nat token word_counts) <=? threshold)%Z
       then UNK_TOKEN else token.

(** The guard of [_get_next_word_probabilities]: [w1] is a key of the table
    and [w2] a key of [self.counts[w1]]. *)
Definition context_present (c : Counts) (w1 w2 : string) : bool :=
  Dict.mem w1 c && Dict.mem w2 (Dict.get_default [] w1 c).

(** The scenario of the specification: a model with threshold 0 trained on
    one short text, and a random source for running it. *)
Definition scenario_model : TrigramModel :=
  fit (init 0) "the cat sat. the dog sat.".

Definition zero_source : Random := mkRandom 0 (fun _ => 0%Q).



(** A property of every token stored as the third component of a trigram. *)
Definition third_keys (P : string -> Prop) (c : Counts) : Prop :=
  forall k1 d1 k2 d2 k3 n,
    In (k1, d1) c -> In (k2, d2) d1 -> In (k3, n) d2 -> P k3.

(** States reached by training only on texts none of whose tokens is the
    literal START marker. *)
Inductive reachable_start_free : TrigramModel -> Prop :=
  | start_free_init : forall threshold, reachable_start_free (init threshold)
  | start_free_fit : forall m text,
      reachable_start_free m ->
      ~ In START_TOKEN (_tokenize (_clean_text text)) ->
      reachable_start_free (fit m text).

(** What the loop of [generate] may append: never START or END, and either
    UNKNOWN or a word of some next-token distribution of the model. *)
Definition emitted_ok (m : TrigramModel) (w : string) : Prop :=
  w <> START_TOKEN /\ w <> END_TOKEN /\
  (w = UNK_TOKEN \/
   exists a b, In w (map fst (_get_next_word_probabilities m a b))).

(** The words of a generated string: the pieces of [out.split(" ")] that are
    not empty. *)
Definition words_of (out : string) : list string :=
  filter (fun w => negb (Str.is_empty w)) (Str.split_on " " out).

(** ** Further auxiliary definitions *)

(** The number of positions of a token sequence at which the trigram
    [w1], [w2], [w3] stands. *)
Fixpoint trigram_occurrences (w1 w2 w3 : string) (l : list string) : nat :=
  match l with
  | [] => 0
  | a :: tl =>
      match tl with
      | b :: x :: _ =>
          if String.eqb a w1 && String.eqb b w2 && String.eqb x w3
          then 1 else 0
      | _ => 0
      end + trigram_occurrences w1 w2 w3 tl
  end.

(** The sum of a measure over the values of a dictionary, and the number of
    trigram observations a table holds. *)
Definition dict_sum {V : Type} (f : V -> nat) (d : list (string * V)) : nat :=
  fold_right (fun kv acc => f (snd kv) + acc) 0 d.

Definition table_total (c : Counts) : nat :=
  dict_sum (dict_sum Dict.total) c.

(** A property of every entry (third token, count) stored in a table. *)
Definition stored_entries (P : string -> nat -> Prop) (c : Counts) : Prop :=
  forall k1 d1 k2 d2 k3 n,
    In (k1, d1) c -> In (k2, d2) d1 -> In (k3, n) d2 -> P k3 n.

(** No dictionary stored inside a table is empty. *)
Definition no_empty_dicts (c : Counts) : Prop :=
  forall k1 d1,
    In (k1, d1) c ->
    d1 <> [] /\ forall k2 d2, In (k2, d2) d1 -> d2 <> [].

(** No dictionary of a table lists a key twice. *)
Definition unique_keys (c : Counts) : Prop :=
  NoDup (Dict.keys c) /\
  forall k1 d1,
    In (k1, d1) c ->
    NoDup (Dict.keys d1) /\
    forall k2 d2, In (k2, d2) d1 -> NoDup (Dict.keys d2).

Definition well_formed (c : Counts) : Prop :=
  unique_keys c /\ no_empty_dicts c /\ stored_entries (fun _ n => 1 <= n) c.

(** Every window of three consecutive tokens of a sequence has a positive
    stored count. *)
Fixpoint observed_chain (c : Counts) (l : list string) : Prop :=
  match l with
  | [] => True
  | a :: tl =>
      match tl with
      | b :: x :: _ => 0 < trigram_count c a b x
      | _ => True
      end /\ observed_chain c tl
  end.

(** The context [generate] starts from. *)
Definition initial_context (seed_text : option (string * string))
  : string * string :=
  match seed_text with
  | None => (START_TOKEN, START_TOKEN)
  | Some p => p
  end.

(** ** Project Gutenberg clean-up (utils.py) *)

Module Gutenberg.

Definition newline : ascii := "010"%char.

(** [s.startswith(sub)] *)
Fixpoint starts_with (sub s : string) : bool :=
  match sub, s with
  | EmptyString, _ => true
  | String a sub', String b s' => Ascii.eqb a b && starts_with sub' s'
  | String _ _, EmptyString => false
  end.

(** [s.find(sub)]: the lowest index at which [sub] starts, or -1. *)
Fixpoint find_from (i : nat) (sub s : string) : Z :=
  if starts_with sub s then Z.of_nat i
  else match s with
       | EmptyString => (-1)%Z
       | String _ r => find_from (S i) sub r
       end.

Definition find (sub s : string) : Z := find_from 0 sub s.

(** [s.rfind(sub)]: the highest index at which [sub] starts, or -1. *)
Fixpoint rfind_from (i : nat) (sub s : string) : Z :=
  match s with
  | EmptyString => if starts_with sub s then Z.of_nat i else (-1)%Z
  | String _ r =>
      let k := rfind_from (S i) sub r in
      if (k =? -1)%Z
      then if starts_with sub s then Z.of_nat i else (-1)%Z
      else k
  end.

Definition rfind (sub s : string) : Z := rfind_from 0 sub s.

(** [s.find(c, start)] for [0 <= start]: the lowest index from [start] on
    that holds [c], or -1.  [i] is the index of the head of [s]. *)
Fixpoint find_char_from (c : ascii) (start i : nat) (s : string) : Z :=
  match s with
  | EmptyString => (-1)%Z
  | String a r =>
      if (start <=? i) && Ascii.eqb a c then Z.of_nat i
      else find_char_from c start (S i) r
  end.

Definition find_char (c : ascii) (s : string) (start : Z) : Z :=
  find_char_from c (Z.to_nat start) 0 s.

(** [s.rfind(c, 0, stop)] for [0 <= stop]: the highest index below [stop]
    that holds [c], or -1. *)
Fixpoint rfind_char_from (c : ascii) (stop i : nat) (s : string) : Z :=
  match s with
  | EmptyString => (-1)%Z
  | String a r =>
      if i <? stop
      then let k := rfind_char_from c stop (S i) r in
           if (k =? -1)%Z
           then if Ascii.eqb a c then Z.of_nat i else (-1)%Z
           else k
      else (-1)%Z
  end.

Definition rfind_char (c : ascii) (s : string) (stop : Z) : Z :=
  rfind_char_from c (Z.to_nat stop) 0 s.

(** [s[n:]] *)
Fixpoint drop (n : nat) (s : string) : string :=
  match n, s with
  | S n', String _ r => drop n' r
  | _, _ => s
  end.

(** [text[start:stop]] for [0 <= start <= stop] *)
Definition slice (start stop : Z) (text : string) : string :=
  String.substring (Z.to_nat start) (Z.to_nat (stop - start)) text.

(** [re.search(pattern, text)], by the end of the leftmost match: [matcher]
    gives the length of the match that the pattern finds at the head of a
    string, if there is one. *)
Fixpoint search_end_from (matcher : string -> option nat) (i : nat)
  (s : string) : option nat :=
  match matcher s with
  | Some len => Some (i + len)
  | None =>
      match s with
      | EmptyString => None
      | String _ r => search_end_from matcher (S i) r
      end
  end.

Definition search_end (matcher : string -> option nat) (s : string)
  : option nat :=
  search_end_from matcher 0 s.

(** A literal matched with [re.IGNORECASE]; the literal is in lower case. *)
Fixpoint starts_with_ci (lit s : string) : bool :=
  match lit, s with
  | EmptyString, _ => true
  | String a lit', String b s' =>
      Ascii.eqb a (Str.lower_char b) && starts_with_ci lit' s'
  | String _ _, EmptyString => false
  end.

(** [.*?\n\n]: the lazy run of characters other than newline ends at the
    first newline, which must be followed by a second one. *)
Fixpoint lazy_to_blank_line (s : string) : option nat :=
  match s with
  | EmptyString => None
  | String c r =>
      if Ascii.eqb c newline
      then match r with
           | String c2 _ => if Ascii.eqb c2 newline then Some 2 else None
           | EmptyString => None
           end
      else option_map S (lazy_to_blank_line r)
  end.

(** [\s*\n]: the greedy run of whitespace gives back characters until a
    newline follows, so the match ends after the last newline of the run. *)
Fixpoint greedy_ws_newline (s : string) : option nat :=
  match s with
  | EmptyString => None
  | String c r =>
      if Str.isspace c
      then match greedy_ws_newline r with
           | Some k => Some (S k)
           | None => if Ascii.eqb c newline then Some 1 else None
           end
      else None
  end.

(** The pattern [\*\*\*.*?\n\n] at the head of a string. *)
Definition match_stars (s : string) : option nat :=
  if starts_with "***" s
  then option_map (Nat.add 3) (lazy_to_blank_line (drop 3 s))
  else None.

(** The pattern [chapter [i1]\s*\n] at the head of a string. *)
Definition match_chapter_i (s : string) : option nat :=
  if starts_with_ci "chapter " s
  then match drop 8 s with
       | String c r =>
           if in_list (String (Str.lower_char c) EmptyString) ["i"; "1"]
           then option_map (Nat.add 9) (greedy_ws_newline r)
           else None
       | EmptyString => None
       end
  else None.

(** The pattern [chapter one\s*\n] at the head of a string. *)
Definition match_chapter_one (s : string) : option nat :=
  if starts_with_ci "chapter one" s
  then option_map (Nat.add 11) (greedy_ws_newline (drop 11 s))
  else None.

(** [re.sub(r'\n{3,}', '\n\n', text)]: of every run of newlines at most two
    are kept.  [written] counts the newlines of the current run kept so
    far. *)
Fixpoint sub_newlines_from (written : nat) (s : string) : string :=
  match s with
  | EmptyString => EmptyString
  | String c r =>
      if Ascii.eqb c newline
      then if written <? 2 then String c (sub_newlines_from (S written) r)
           else sub_newlines_from written r
      else String c (sub_newlines_from 0 r)
  end.

Definition sub_newlines (s : string) : string := sub_newlines_from 0 s.

(** [re.sub(r' +', ' ', text)]: every run of spaces becomes one space. *)
Fixpoint sub_spaces_from (in_run : bool) (s : string) : string :=
  match s with
  | EmptyString => EmptyString
  | String c r =>
      if Ascii.eqb c " "
      then if in_run then sub_spaces_from true r
           else String c (sub_spaces_from true r)
      else String c (sub_spaces_from false r)
  end.

Definition sub_spaces (s : string) : string := sub_spaces_from false s.

Definition start_markers : list string :=
  ["*** start of"; "***start of"; "*start of the project gutenberg";
   "start of the project gutenberg"].

Definition end_markers : list string :=
  ["*** end of"; "***end of"; "*end of the project gutenberg";
   "end of the project gutenberg"].

Definition patterns : list (string -> option nat) :=
  [match_stars; match_chapter_i; match_chapter_one].

(** The first loop: the first marker found decides, and the line it stands
    on is skipped up to its newline. *)
Fixpoint start_by_marker (markers : list string) (text : string) : Z :=
  match markers with
  | [] => (-1)%Z
  | marker :: rest =>
      let idx := find marker (Str.lower text) in
      if negb (idx =? -1)%Z then find_char newline text idx
      else start_by_marker rest text
  end.

(** The second loop: the first pattern that matches decides. *)
Fixpoint start_by_pattern (pats : list (string -> option nat)) (text : string)
  : Z :=
  match pats with
  | [] => (-1)%Z
  | p :: rest =>
      match search_end p text with
      | Some e => Z.of_nat e
      | None => start_by_pattern rest text
      end
  end.

(** The third loop: the last occurrence of the first marker found decides,
    and the text ends at the last newline before it. *)
Fixpoint end_by_marker (markers : list string) (text : string) : Z :=
  match markers with
  | [] => Z.of_nat (String.length text)
  | marker :: rest =>
      let idx := rfind marker (Str.lower text) in
      if negb (idx =? -1)%Z then rfind_char newline text idx
      else end_by_marker rest text
  end.

Definition clean_gutenberg_text (text : string) : string :=
  let start_idx := start_by_marker start_markers text in
  let start_idx :=
    if (start_idx =? -1)%Z then start_by_pattern patterns text
    else start_idx in
  let end_idx := end_by_marker end_markers text in
  let text :=
    if negb (start_idx =? -1)%Z && (start_idx <? end_idx)%Z
    then slice start_idx end_idx text else text in
  let text := sub_newlines text in
  let text := sub_spaces text in
  Str.strip text.

Definition preprocess_text_for_training (text : string)
  (clean_gutenberg : bool) : string :=
  if clean_gutenberg then clean_gutenberg_text text else text.

End Gutenberg.

(** The part of the text that [clean_gutenberg_text] keeps before it tidies
    the whitespace: the slice between the two indices when a start was
    found and the end lies after it, the whole text otherwise. *)
Definition gutenberg_body (text : string) : string :=
  let start_idx := Gutenberg.start_by_marker Gutenberg.start_markers text in
  let start_idx :=
    if (start_idx =? -1)%Z
    then Gutenberg.start_by_pattern Gutenberg.patterns text
    else start_idx in
  let end_idx := Gutenberg.end_by_marker Gutenberg.end_markers text in
  if negb (start_idx =? -1)%Z && (start_idx <? end_idx)%Z
  then Gutenberg.slice start_idx end_idx text else text.

(** A string without two spaces in a row; [prev] tells that the position
    before the string holds a space. *)
Fixpoint no_double_space (prev : bool) (s : string) : bool :=
  match s with
  | EmptyString => true
  | String c r =>
      if Ascii.eqb c " " then negb prev && no_double_space true r
      else no_double_space false r
  end.

(** A string without three newlines in a row; [run] is the number of
    newlines right before the string. *)
Fixpoint no_triple_newline (run : nat) (s : string) : bool :=
  match s with
  | EmptyString => true
  | String c r =>
      if Ascii.eqb c Gutenberg.newline
      then (run <? 2) && no_triple_newline (S run) r
      else no_triple_newline 0 r
  end.
(** * Properties *)

(** ** The string primitives on examples *)

Module StrExamples.
Import Str.

Example lower_ex : lower "The CAT  Sat." = "the cat  sat.".
Proof. reflexivity. Qed.

Example sub_ws_ex :
  sub_ws (String "009" " a " ++ String "010" (String "013" "b  ")) = " a b ".
Proof. reflexivity. Qed.

Example strip_ex : strip "  a b  " = "a b".
Proof. reflexivity. Qed.

Example split_ex : split "  the cat   sat. " = ["the"; "cat"; "sat."].
Proof. reflexivity. Qed.

Example split_on_ex : split_on " " "a  b" = ["a"; ""; "b"].
Proof. reflexivity. Qed.

Example split_on_empty : split_on " " "" = [""].
Proof. reflexivity. Qed.

Example join_ex : join ["the"; "cat"] = "the cat".
Proof. reflexivity. Qed.

End StrExamples.

(** ** The model on examples *)

Module ModelExamples.

Example clean_text_ex :
  _clean_text (String "009" "The  CAT" ++ String "010" " sat. ") = "the cat sat.".
Proof. reflexivity. Qed.

Example padded_scenario :
  padded_tokens_of 0 [] "the cat sat. the dog sat."
  = ["<start>"; "<start>"; "the"; "cat"; "sat."; "the"; "dog"; "sat."; "<end>"].
Proof. reflexivity. Qed.

Example counts_scenario :
  counts scenario_model
  = [("<start>", [("<start>", [("the", 1)]); ("the", [("cat", 1)])]);
     ("the", [("cat", [("sat.", 1)]); ("dog", [("sat.", 1)])]);
     ("cat", [("sat.", [("the", 1)])]);
     ("sat.", [("the", [("dog", 1)])]);
     ("dog", [("sat.", [("<end>", 1)])])].
Proof. reflexivity. Qed.

Example vocab_scenario :
  vocab scenario_model = [("the", 2); ("cat", 1); ("sat.", 2); ("dog", 1)].
Proof. reflexivity. Qed.

Example unknown_words_ex :
  _handle_unknown_words 1 [] ["a"; "b"; "a"; "<unk>"; "<end>"]
  = (["a"; "<unk>"; "a"; "<unk>"; "<end>"], [("a", 2); ("<unk>", 2)]).
Proof. reflexivity. Qed.

Example count_trigrams_short_ex : count_trigrams ["a"; "b"] [] = [].
Proof. reflexivity. Qed.

Example generate_scenario :
  generate scenario_model 50 None zero_source
  = ("the cat sat. the dog sat.", mkRandom 7 (source zero_source)).
Proof. vm_compute. reflexivity. Qed.

Example generate_scenario_capped :
  generate scenario_model 3 None zero_source
  = ("the cat sat.", mkRandom 3 (source zero_source)).
Proof. vm_compute. reflexivity. Qed.

Example generate_twice_trained :
  fst (generate (fit scenario_model "the cat ran") 4 None
         (mkRandom 0 (fun _ => 3 # 4)))
  = "the cat ran".
Proof. vm_compute. reflexivity. Qed.

End ModelExamples.

(** ** Facts about the string primitives *)

Module StrFacts.
Import Str.

Ltac all_chars c := destruct c as [[] [] [] [] [] [] [] []].

Lemma lower_char_idem : forall c, lower_char (lower_char c) = lower_char c.
Proof. intro c; all_chars c; reflexivity. Qed.

Lemma isspace_lower_char : forall c, isspace (lower_char c) = isspace c.
Proof. intro c; all_chars c; reflexivity. Qed.

Lemma lower_char_space : lower_char " " = " "%char.
Proof. reflexivity. Qed.

Lemma isspace_space : isspace " " = true.
Proof. reflexivity. Qed.

Lemma lower_idem : forall s, lower (lower s) = lower s.
Proof.
  induction s as [|c r IH]; simpl; [reflexivity|].
  now rewrite lower_char_idem, IH.
Qed.

Lemma lower_sub_ws_from :
  forall s b, lower (sub_ws_from b s) = sub_ws_from b (lower s).
Proof.
  induction s as [|c r IH]; intro b; simpl; [reflexivity|].
  rewrite isspace_lower_char.
  destruct (isspace c); [destruct b|]; simpl; now rewrite ?IH.
Qed.

Lemma lower_lstrip : forall s, lower (lstrip s) = lstrip (lower s).
Proof.
  induction s as [|c r IH]; simpl; [reflexivity|].
  rewrite isspace_lower_char.
  destruct (isspace c); [exact IH | reflexivity].
Qed.

Lemma lower_rstrip : forall s, lower (rstrip s) = rstrip (lower s).
Proof.
  induction s as [|c r IH]; simpl; [reflexivity|].
  rewrite isspace_lower_char, <- IH.
  destruct (rstrip r); simpl; [destruct (isspace c)|]; reflexivity.
Qed.

Lemma lower_strip : forall s, lower (strip s) = strip (lower s).
Proof. intro s; unfold strip. now rewrite lower_lstrip, lower_rstrip. Qed.

Lemma single_spaced_sub_ws_from :
  forall s b, single_spaced b (sub_ws_from b s) = true.
Proof.
  induction s as [|c r IH]; intro b; simpl; [reflexivity|].
  destruct (isspace c) eqn:Hc.
  - destruct b; [apply IH|]. simpl. now rewrite IH.
  - simpl. rewrite Hc. apply IH.
Qed.

Lemma sub_ws_from_fixed :
  forall s b, single_spaced b s = true -> sub_ws_from b s = s.
Proof.
  induction s as [|c r IH]; intros b H; simpl in *; [reflexivity|].
  destruct (isspace c).
  - apply andb_prop in H as [H Hr]. apply andb_prop in H as [Hc Hb].
    apply Ascii.eqb_eq in Hc. subst c.
    destruct b; [discriminate|]. now rewrite (IH true Hr).
  - now rewrite (IH false H).
Qed.

Lemma single_spaced_lstrip :
  forall s b b', single_spaced b s = true -> single_spaced b' (lstrip s) = true.
Proof.
  induction s as [|c r IH]; intros b b' H; simpl in *; [reflexivity|].
  destruct (isspace c) eqn:Hc.
  - apply andb_prop in H as [_ Hr]. now apply (IH true).
  - simpl. now rewrite Hc.
Qed.

Lemma single_spaced_rstrip :
  forall s b, single_spaced b s = true -> single_spaced b (rstrip s) = true.
Proof.
  induction s as [|c r IH]; intros b H; simpl in *; [reflexivity|].
  destruct (isspace c) eqn:Hc.
  - apply andb_prop in H as [H Hr]. specialize (IH true Hr).
    destruct (rstrip r) eqn:Hrs; [reflexivity|].
    simpl in *. rewrite Hc. now rewrite H, IH.
  - specialize (IH false H).
    destruct (rstrip r) eqn:Hrs; simpl in *; now rewrite Hc.
Qed.

Lemma lstrip_idem : forall s, lstrip (lstrip s) = lstrip s.
Proof.
  induction s as [|c r IH]; simpl; [reflexivity|].
  destruct (isspace c) eqn:Hc; [exact IH|]. simpl. now rewrite Hc.
Qed.

Lemma rstrip_idem : forall s, rstrip (rstrip s) = rstrip s.
Proof.
  induction s as [|c r IH]; simpl; [reflexivity|].
  destruct (rstrip r) eqn:Hr.
  - destruct (isspace c) eqn:Hc; simpl; [reflexivity|]. now rewrite Hc.
  - simpl in *. now rewrite IH.
Qed.

Lemma rstrip_lstrip : forall s, rstrip (lstrip s) = lstrip (rstrip s).
Proof.
  induction s as [|c r IH]; simpl; [reflexivity|].
  destruct (isspace c) eqn:Hc.
  - rewrite IH. destruct (rstrip r); simpl; [reflexivity|]. now rewrite Hc.
  - simpl. destruct (rstrip r); simpl; now rewrite Hc.
Qed.

Lemma strip_idem : forall s, strip (strip s) = strip s.
Proof.
  intro s. unfold strip.
  now rewrite rstrip_lstrip, lstrip_idem, rstrip_idem.
Qed.

Lemma rstrip_all_space : forall s, all_space s = true -> rstrip s = "".
Proof.
  induction s as [|c r IH]; simpl; intro H; [reflexivity|].
  apply andb_prop in H as [Hc Hr]. now rewrite (IH Hr), Hc.
Qed.

Lemma rstrip_empty_all_space : forall s, rstrip s = "" -> all_space s = true.
Proof.
  induction s as [|c r IH]; simpl; intro H; [reflexivity|].
  destruct (rstrip r) eqn:Hr; [|discriminate].
  destruct (isspace c); [|discriminate]. now rewrite IH.
Qed.

Lemma lstrip_all_space : forall s, all_space s = true -> lstrip s = "".
Proof.
  induction s as [|c r IH]; simpl; intro H; [reflexivity|].
  apply andb_prop in H as [Hc Hr]. now rewrite Hc, IH.
Qed.

Lemma lstrip_empty_all_space : forall s, lstrip s = "" -> all_space s = true.
Proof.
  induction s as [|c r IH]; simpl; intro H; [reflexivity|].
  destruct (isspace c); [|discriminate]. now rewrite IH.
Qed.

Lemma all_space_lstrip : forall s, all_space (lstrip s) = all_space s.
Proof.
  induction s as [|c r IH]; simpl; [reflexivity|].
  destruct (isspace c) eqn:Hc; simpl; [exact IH|]. now rewrite Hc.
Qed.

Lemma all_space_rstrip : forall s, all_space (rstrip s) = all_space s.
Proof.
  induction s as [|c r IH]; simpl; [reflexivity|].
  destruct (rstrip r) eqn:Hr.
  - rewrite (rstrip_empty_all_space r Hr).
    destruct (isspace c) eqn:Hc; simpl; [reflexivity|]. now rewrite Hc.
  - simpl in *. now rewrite IH.
Qed.

Lemma all_space_strip : forall s, all_space (strip s) = all_space s.
Proof. intro s; unfold strip. now rewrite all_space_lstrip, all_space_rstrip. Qed.

Lemma all_space_lower : forall s, all_space (lower s) = all_space s.
Proof.
  induction s as [|c r IH]; simpl; [reflexivity|].
  now rewrite isspace_lower_char, IH.
Qed.

Lemma all_space_sub_ws_from :
  forall s b, all_space (sub_ws_from b s) = all_space s.
Proof.
  induction s as [|c r IH]; intro b; simpl; [reflexivity|].
  destruct (isspace c) eqn:Hc; [destruct b|]; simpl;
    rewrite ?Hc, ?IH; reflexivity.
Qed.

Lemma is_empty_true : forall s, is_empty s = true -> s = "".
Proof. now destruct s. Qed.

Lemma is_empty_strip : forall s, is_empty (strip s) = all_space s.
Proof.
  intro s. destruct (all_space s) eqn:H.
  - unfold strip. now rewrite (rstrip_all_space s H).
  - destruct (strip s) eqn:Hs; [|reflexivity].
    rewrite <- all_space_strip, Hs in H. discriminate.
Qed.

(** The guard of [fit]: [not text or not text.strip()]. *)
Lemma blank_guard :
  forall s, is_empty s || is_empty (strip s) = all_space s.
Proof.
  intro s. rewrite is_empty_strip. destruct s; reflexivity.
Qed.

Lemma split_all_space : forall s, all_space s = true -> split s = [].
Proof.
  induction s as [|c r IH]; simpl; intro H; [reflexivity|].
  apply andb_prop in H as [Hc Hr]. now rewrite Hc, IH.
Qed.

Lemma split_nil_all_space : forall s, split s = [] -> all_space s = true.
Proof.
  induction s as [|c r IH]; simpl; intro H; [reflexivity|].
  destruct (isspace c); [now rewrite IH|].
  destruct (starts_word r); [destruct (split r)|]; discriminate.
Qed.

Lemma split_wordlike :
  forall s, Forall (fun w => wordlike w = true) (split s).
Proof.
  induction s as [|c r IH]; simpl; [constructor|].
  destruct (isspace c) eqn:Hc; [exact IH|].
  assert (Hone : wordlike (String c "") = true)
    by (unfold wordlike; simpl; now rewrite Hc).
  destruct (starts_word r).
  - destruct (split r) as [|w ws]; [now repeat constructor|].
    inversion IH as [|? ? Hw Hws]; subst. constructor; [|exact Hws].
    unfold wordlike in *. simpl. rewrite Hc. simpl.
    now apply andb_prop in Hw as [_ Hw].
  - now constructor.
Qed.

Lemma split_on_not_nil : forall sep s, split_on sep s <> [].
Proof.
  intros sep s. destruct s as [|c r]; simpl; [discriminate|].
  destruct (Ascii.eqb c sep); [discriminate|].
  destruct (split_on sep r); discriminate.
Qed.

Lemma split_on_word :
  forall w, no_space w = true -> split_on " " w = [w].
Proof.
  induction w as [|c r IH]; simpl; intro H; [reflexivity|].
  apply andb_prop in H as [Hc Hr].
  destruct (Ascii.eqb c " ") eqn:E.
  - apply Ascii.eqb_eq in E. subst c. discriminate.
  - now rewrite (IH Hr).
Qed.

Lemma split_on_word_space :
  forall w t, no_space w = true ->
    split_on " " (w ++ String " " t)%string = w :: split_on " " t.
Proof.
  induction w as [|c r IH]; simpl; intros t H; [reflexivity|].
  apply andb_prop in H as [Hc Hr].
  destruct (Ascii.eqb c " ") eqn:E.
  - apply Ascii.eqb_eq in E. subst c. discriminate.
  - now rewrite (IH t Hr).
Qed.

Lemma split_on_join :
  forall ws, Forall (fun w => no_space w = true) ws -> ws <> [] ->
    split_on " " (join ws) = ws.
Proof.
  induction ws as [|x xs IH]; intros H Hne; [congruence|].
  inversion H as [|? ? Hx Hxs]; subst.
  destruct xs as [|y ys].
  - simpl. now apply split_on_word.
  - unfold join in *.
    change (String.concat " " (x :: y :: ys))
      with (x ++ String " " (String.concat " " (y :: ys)))%string.
    rewrite (split_on_word_space x _ Hx). f_equal.
    apply IH; [exact Hxs | discriminate].
Qed.

Lemma split_word :
  forall w, wordlike w = true -> split w = [w].
Proof.
  induction w as [|c r IH]; [discriminate|].
  unfold wordlike. simpl. intro H. apply andb_prop in H as [Hc Hr].
  apply negb_true_iff in Hc. rewrite Hc.
  destruct r as [|c' r']; [reflexivity|].
  assert (Hw : wordlike (String c' r') = true) by exact Hr.
  simpl in Hr. apply andb_prop in Hr as [Hc' _]. cbn [starts_word].
  rewrite Hc'. now rewrite (IH Hw).
Qed.

Lemma split_word_space :
  forall w t, wordlike w = true ->
    split (w ++ String " " t)%string = w :: split t.
Proof.
  induction w as [|c r IH]; [discriminate|].
  unfold wordlike. simpl. intros t H. apply andb_prop in H as [Hc Hr].
  apply negb_true_iff in Hc. rewrite Hc.
  destruct r as [|c' r']; [reflexivity|].
  assert (Hw : wordlike (String c' r') = true) by exact Hr.
  simpl in Hr. apply andb_prop in Hr as [Hc' _].
  cbn [String.append starts_word]. rewrite Hc'.
  change (String c' (r' ++ String " " t))%string
    with (String c' r' ++ String " " t)%string.
  now rewrite (IH t Hw).
Qed.

(** [split()] undoes [" ".join] on words. *)
Lemma split_join :
  forall ws, Forall (fun w => wordlike w = true) ws -> split (join ws) = ws.
Proof.
  induction ws as [|x xs IH]; intro H; [reflexivity|].
  inversion H as [|? ? Hx Hxs]; subst.
  destruct xs as [|y ys].
  - simpl. now apply split_word.
  - unfold join in *.
    change (String.concat " " (x :: y :: ys))
      with (x ++ String " " (String.concat " " (y :: ys)))%string.
    rewrite (split_word_space x _ Hx). f_equal. now apply IH.
Qed.

End StrFacts.

(** ** Facts about dictionaries *)

Module DictFacts.

Section Generic.
Context {V : Type}.
Implicit Types (d : list (string * V)) (k : string) (v : V).

Lemma get_set_same : forall d k v, Dict.get k (Dict.set k v d) = Some v.
Proof.
  induction d as [|[k' v'] r IH]; intros k v; simpl.
  - now rewrite String.eqb_refl.
  - destruct (String.eqb k k') eqn:E; simpl; rewrite E; [reflexivity|apply IH].
Qed.

Lemma get_set_other :
  forall d k k' v, k <> k' -> Dict.get k' (Dict.set k v d) = Dict.get k' d.
Proof.
  induction d as [|[k0 v0] r IH]; intros k k' v Hne; simpl.
  - destruct (String.eqb k' k) eqn:E; [|reflexivity].
    apply String.eqb_eq in E. congruence.
  - destruct (String.eqb k k0) eqn:E; simpl.
    + apply String.eqb_eq in E. subst k0.
      destruct (String.eqb k' k) eqn:E'; [|reflexivity].
      apply String.eqb_eq in E'. congruence.
    + destruct (String.eqb k' k0); [reflexivity|now apply IH].
Qed.

Lemma get_default_set_same :
  forall d k v dflt, Dict.get_default dflt k (Dict.set k v d) = v.
Proof. intros. unfold Dict.get_default. now rewrite get_set_same. Qed.

Lemma get_default_set_other :
  forall d k k' v dflt, k <> k' ->
    Dict.get_default dflt k' (Dict.set k v d) = Dict.get_default dflt k' d.
Proof. intros. unfold Dict.get_default. now rewrite get_set_other. Qed.

Lemma set_not_nil : forall d k v, Dict.set k v d <> [].
Proof.
  intros [|[k' v'] r] k v; simpl; [discriminate|].
  destruct (String.eqb k k'); discriminate.
Qed.

Lemma get_Some_In : forall d k v, Dict.get k d = Some v -> In (k, v) d.
Proof.
  induction d as [|[k' v'] r IH]; intros k v; simpl; [discriminate|].
  destruct (String.eqb k k') eqn:E.
  - apply String.eqb_eq in E. intros [= ->]. subst. now left.
  - intro H. right. now apply IH.
Qed.

(** After [d[k] = v] an entry is the new one or was there before. *)
Lemma In_set :
  forall d k v k' v', In (k', v') (Dict.set k v d) ->
    (k' = k /\ v' = v) \/ In (k', v') d.
Proof.
  induction d as [|[k0 v0] r IH]; intros k v k' v'; simpl.
  - intros [[= <- <-]|[]]. now left.
  - destruct (String.eqb k k0) eqn:E; simpl.
    + apply String.eqb_eq in E. subst k0.
      intros [[= <- <-]|H]; [now left | right; now right].
    + intros [H|H]; [right; now left|].
      destruct (IH _ _ _ _ H) as [?|?]; [now left | right; now right].
Qed.
End Generic.

Lemma fold_add_shift :
  forall l a, fold_left Nat.add l a = a + fold_left Nat.add l 0.
Proof.
  induction l as [|x r IH]; intro a; simpl; [lia|].
  rewrite (IH (a + x)), (IH x). lia.
Qed.

Lemma total_nil : Dict.total [] = 0.
Proof. reflexivity. Qed.

Lemma total_cons :
  forall k v d, Dict.total ((k, v) :: d) = v + Dict.total d.
Proof.
  intros. unfold Dict.total. simpl. now rewrite fold_add_shift.
Qed.

Lemma total_incr : forall d k, Dict.total (Dict.incr k d) = S (Dict.total d).
Proof.
  unfold Dict.incr, Dict.get_default.
  induction d as [|[k' v'] r IH]; intro k; simpl.
  - reflexivity.
  - destruct (String.eqb k k') eqn:E.
    + rewrite !total_cons. lia.
    + rewrite !total_cons, IH. lia.
Qed.

Lemma get_default_incr_same :
  forall d k, Dict.get_default 0 k (Dict.incr k d) = S (Dict.get_default 0 k d).
Proof.
  intros. unfold Dict.incr. rewrite get_default_set_same. lia.
Qed.

Lemma get_default_incr_other :
  forall d k k', k <> k' ->
    Dict.get_default 0 k' (Dict.incr k d) = Dict.get_default 0 k' d.
Proof. intros. unfold Dict.incr. now apply get_default_set_other. Qed.

End DictFacts.

(** ** The trigram counter *)

Module CounterFacts.
Import DictFacts.

Lemma context_of_incr_same :
  forall c w1 w2 w3,
    context_of (incr_trigram w1 w2 w3 c) w1 w2
    = Dict.incr w3 (context_of c w1 w2).
Proof.
  intros. unfold context_of, incr_trigram.
  now rewrite !get_default_set_same.
Qed.

Lemma context_of_incr_other :
  forall c w1 w2 w3 a b, (a, b) <> (w1, w2) ->
    context_of (incr_trigram w1 w2 w3 c) a b = context_of c a b.
Proof.
  intros c w1 w2 w3 a b Hne. unfold context_of, incr_trigram.
  destruct (string_dec w1 a) as [->|Ha].
  - rewrite get_default_set_same.
    rewrite get_default_set_other; [reflexivity|congruence].
  - now rewrite get_default_set_other.
Qed.

Lemma context_total_incr :
  forall c w1 w2 w3 a b,
    context_total (incr_trigram w1 w2 w3 c) a b
    = context_total c a b
      + (if String.eqb w1 a && String.eqb w2 b then 1 else 0).
Proof.
  intros. unfold context_total.
  destruct (String.eqb w1 a) eqn:E1; [destruct (String.eqb w2 b) eqn:E2|]; simpl.
  - apply String.eqb_eq in E1, E2. subst.
    rewrite context_of_incr_same, total_incr. lia.
  - apply String.eqb_neq in E2.
    rewrite context_of_incr_other; [lia|congruence].
  - apply String.eqb_neq in E1.
    rewrite context_of_incr_other; [lia|congruence].
Qed.

Lemma fold_left_seq_shift :
  forall (A : Type) (f : A -> nat -> A) n (a : A),
    fold_left f (seq 1 n) a = fold_left (fun x i => f x (S i)) (seq 0 n) a.
Proof.
  intros A f n a. rewrite <- seq_shift.
  generalize (seq 0 n) as l. intro l. revert a.
  induction l as [|i r IH]; intro a; simpl; [reflexivity|apply IH].
Qed.

Lemma count_trigrams_short :
  forall p c, length p < 3 -> count_trigrams p c = c.
Proof.
  intros p c H. unfold count_trigrams.
  replace (length p - 2) with 0 by lia. reflexivity.
Qed.

(** The index loop unrolled on the window at the head of the sequence. *)
Lemma count_trigrams_window :
  forall a b x r c,
    count_trigrams (a :: b :: x :: r) c
    = count_trigrams (b :: x :: r) (incr_trigram a b x c).
Proof.
  intros. unfold count_trigrams.
  change (length (a :: b :: x :: r) - 2) with (S (length r)).
  change (length (b :: x :: r) - 2) with (length r - 0).
  rewrite Nat.sub_0_r.
  cbn [seq fold_left]. rewrite fold_left_seq_shift.
  reflexivity.
Qed.

Lemma context_total_count_trigrams :
  forall p c w1 w2,
    context_total (count_trigrams p c) w1 w2
    = context_total c w1 w2 + context_occurrences w1 w2 p.
Proof.
  induction p as [|a tl IH]; intros c w1 w2.
  - rewrite count_trigrams_short by (simpl; lia). simpl. lia.
  - destruct tl as [|b [|x r]].
    + rewrite count_trigrams_short by (simpl; lia). simpl. lia.
    + rewrite count_trigrams_short by (simpl; lia). simpl. lia.
    + rewrite count_trigrams_window, IH, context_total_incr.
      cbn [context_occurrences]. lia.
Qed.

End CounterFacts.

(** ** Unknown-word substitution *)

Module UnknownFacts.
Import DictFacts.

Lemma replace_word_fst :
  forall wc T acc v t,
    fst (replace_word wc T (acc, v) t) = acc ++ [substitute wc T t].
Proof.
  intros. unfold replace_word, substitute.
  destruct (in_list t [START_TOKEN; END_TOKEN]); [reflexivity|].
  destruct (Z.of_nat (Dict.get_default 0%nat t wc) <=? T)%Z; reflexivity.
Qed.

Lemma fold_replace_word_fst :
  forall wc T tokens acc v,
    fst (fold_left (replace_word wc T) tokens (acc, v))
    = acc ++ map (substitute wc T) tokens.
Proof.
  induction tokens as [|t r IH]; intros acc v; cbn [fold_left map].
  - simpl. now rewrite app_nil_r.
  - destruct (replace_word wc T (acc, v) t) as [acc' v'] eqn:E.
    rewrite IH. pose proof (replace_word_fst wc T acc v t) as H.
    rewrite E in H. simpl in H. subst acc'.
    now rewrite <- app_assoc.
Qed.

Lemma handle_unknown_words_fst :
  forall T v tokens,
    fst (_handle_unknown_words T v tokens)
    = map (substitute (count_words tokens) T) tokens.
Proof.
  intros. unfold _handle_unknown_words. now rewrite fold_replace_word_fst.
Qed.

Lemma handle_unknown_words_length :
  forall T v tokens,
    length (fst (_handle_unknown_words T v tokens)) = length tokens.
Proof. intros. now rewrite handle_unknown_words_fst, length_map. Qed.

Lemma fold_count_words :
  forall tokens d t,
    Dict.get_default 0 t
      (fold_left
         (fun word_counts token =>
            if negb (in_list token [START_TOKEN; END_TOKEN; UNK_TOKEN])
            then Dict.incr token word_counts else word_counts)
         tokens d)
    = Dict.get_default 0 t d
      + (if in_list t [START_TOKEN; END_TOKEN; UNK_TOKEN] then 0
         else count_occ string_dec tokens t).
Proof.
  induction tokens as [|a r IH]; intros d t.
  - cbn [fold_left count_occ].
    destruct (in_list t [START_TOKEN; END_TOKEN; UNK_TOKEN]); lia.
  - cbn [fold_left count_occ]. rewrite IH.
    destruct (string_dec a t) as [->|Hne].
    + destruct (in_list t [START_TOKEN; END_TOKEN; UNK_TOKEN]); cbn [negb].
      * lia.
      * rewrite get_default_incr_same. lia.
    + destruct (in_list a [START_TOKEN; END_TOKEN; UNK_TOKEN]); cbn [negb].
      * reflexivity.
      * now rewrite get_default_incr_other.
Qed.

(** The first pass counts every token that is not a reserved one, and
    records nothing for the reserved ones. *)
Lemma raw_frequency_spec :
  forall tokens t,
    raw_frequency tokens t
    = if in_list t [START_TOKEN; END_TOKEN; UNK_TOKEN] then 0
      else count_occ string_dec tokens t.
Proof.
  intros. unfold raw_frequency, count_words. now rewrite fold_count_words.
Qed.

Lemma in_list_true :
  forall t l, in_list t l = true <-> In t l.
Proof.
  intros t l. unfold in_list. rewrite existsb_exists. split.
  - intros [x [Hx E]]. apply String.eqb_eq in E. now subst.
  - intro H. exists t. split; [exact H|apply String.eqb_refl].
Qed.

Lemma in_list_false :
  forall t l, in_list t l = false <-> ~ In t l.
Proof.
  intros t l. rewrite <- in_list_true. destruct (in_list t l); split;
    congruence.
Qed.

End UnknownFacts.

(** ** Training *)

Module FitFacts.
Import StrFacts DictFacts CounterFacts UnknownFacts.

Lemma all_space_clean_text :
  forall text, all_space (_clean_text text) = all_space text.
Proof.
  intro text. unfold _clean_text, Str.sub_ws.
  now rewrite all_space_strip, all_space_sub_ws_from, all_space_lower.
Qed.

Lemma tokens_blank :
  forall text, all_space text = true -> _tokenize (_clean_text text) = [].
Proof.
  intros text H. unfold _tokenize. apply split_all_space.
  now rewrite all_space_clean_text.
Qed.

Lemma tokens_not_blank :
  forall text, all_space text = false -> _tokenize (_clean_text text) <> [].
Proof.
  intros text H E. unfold _tokenize in E.
  apply split_nil_all_space in E. rewrite all_space_clean_text in E.
  congruence.
Qed.

Lemma padded_blank :
  forall T v text, all_space text = true -> padded_tokens_of T v text = [].
Proof.
  intros T v text H. unfold padded_tokens_of.
  now rewrite (tokens_blank text H).
Qed.

Lemma fit_blank :
  forall m text, all_space text = true ->
    fit m text = mkModel (counts m) (vocab m) (unk_threshold m) true.
Proof.
  intros m text H. unfold fit. now rewrite blank_guard, H.
Qed.

Lemma fit_counts :
  forall m text,
    counts (fit m text)
    = count_trigrams (padded_tokens_of (unk_threshold m) (vocab m) text)
        (counts m).
Proof.
  intros m text. destruct (all_space text) eqn:H.
  - rewrite (fit_blank m text H), padded_blank by exact H. reflexivity.
  - unfold fit, padded_tokens_of. rewrite blank_guard, H.
    destruct (_handle_unknown_words _ _ _) as [tokens vocab']. reflexivity.
Qed.

Lemma fit_trained : forall m text, trained (fit m text) = true.
Proof.
  intros m text. unfold fit.
  destruct (_ || _); [reflexivity|].
  destruct (_handle_unknown_words _ _ _). reflexivity.
Qed.

Lemma fit_unk_threshold :
  forall m text, unk_threshold (fit m text) = unk_threshold m.
Proof.
  intros m text. unfold fit.
  destruct (_ || _); [reflexivity|].
  destruct (_handle_unknown_words _ _ _). reflexivity.
Qed.

Lemma count_trigrams_not_nil :
  forall p c, c <> [] -> count_trigrams p c <> [].
Proof.
  induction p as [|a tl IH]; intros c Hc.
  - now rewrite count_trigrams_short by (simpl; lia).
  - destruct tl as [|b [|x r]];
      try (now rewrite count_trigrams_short by (simpl; lia)).
    rewrite count_trigrams_window. apply IH. apply set_not_nil.
Qed.

Lemma count_trigrams_padding_not_nil :
  forall tokens c, tokens <> [] -> count_trigrams (_add_padding tokens) c <> [].
Proof.
  intros [|t r] c H; [congruence|].
  cbn [_add_padding app]. rewrite count_trigrams_window.
  apply count_trigrams_not_nil, set_not_nil.
Qed.

End FitFacts.

(** ** Distribution, sampler and generator *)

Module GenerateFacts.
Import DictFacts.

Lemma probabilities_guard :
  forall m w1 w2,
    negb (Dict.mem w1 (counts m)) ||
    negb (Dict.mem w2 (Dict.get_default [] w1 (counts m)))
    = negb (context_present (counts m) w1 w2).
Proof. intros. unfold context_present. now rewrite negb_andb. Qed.

Lemma probabilities_absent :
  forall m w1 w2,
    context_present (counts m) w1 w2 = false ->
    _get_next_word_probabilities m w1 w2 = [].
Proof.
  intros m w1 w2 H. unfold _get_next_word_probabilities.
  now rewrite probabilities_guard, H.
Qed.


Lemma probabilities_present :
  forall m w1 w2,
    context_present (counts m) w1 w2 = true ->
    0 < context_total (counts m) w1 w2 ->
    _get_next_word_probabilities m w1 w2
    = map (fun '(w3, c) => (w3, ratio c (context_total (counts m) w1 w2)))
        (context_of (counts m) w1 w2).
Proof.
  intros m w1 w2 Hp Ht. unfold _get_next_word_probabilities.
  rewrite probabilities_guard, Hp. cbn [negb].
  fold (context_of (counts m) w1 w2). fold (context_total (counts m) w1 w2).
  destruct (Nat.eqb_spec (context_total (counts m) w1 w2) 0); [lia|].
  reflexivity.
Qed.

(** The words of a distribution are keys of the stored context. *)
Lemma probabilities_words :
  forall m w1 w2 w3,
    In w3 (map fst (_get_next_word_probabilities m w1 w2)) ->
    In w3 (Dict.keys (context_of (counts m) w1 w2)).
Proof.
  intros m w1 w2 w3. unfold _get_next_word_probabilities.
  destruct (_ || _); [intros []|].
  fold (context_of (counts m) w1 w2). fold (context_total (counts m) w1 w2).
  destruct (_ =? _); [intros []|].
  rewrite map_map. unfold Dict.keys. intro H.
  apply in_map_iff in H as [[w c] [E H]]. apply in_map_iff.
  exists (w, c). split; [exact E|exact H].
Qed.

Lemma sample_empty :
  forall m w1 w2 g,
    _get_next_word_probabilities m w1 w2 = [] ->
    _sample_next_word m w1 w2 g = (END_TOKEN, g).
Proof. intros m w1 w2 g H. unfold _sample_next_word. now rewrite H. Qed.

Lemma generate_loop_empty :
  forall n m w1 w2 acc g,
    _get_next_word_probabilities m w1 w2 = [] ->
    generate_loop n m w1 w2 acc g = (acc, g).
Proof.
  intros [|n] m w1 w2 acc g H; [reflexivity|].
  cbn [generate_loop]. now rewrite (sample_empty m w1 w2 g H).
Qed.

Lemma generate_empty_context :
  forall m max_length w1 w2 g,
    _get_next_word_probabilities m w1 w2 = [] ->
    generate m max_length (Some (w1, w2)) g = (EmptyString, g).
Proof.
  intros m max_length w1 w2 g H. unfold generate, generate_words.
  destruct (trained m); [|reflexivity]. cbn [negb].
  destruct (counts m) eqn:Hc; [reflexivity|].
  now rewrite (generate_loop_empty _ m w1 w2 [] g H).
Qed.

End GenerateFacts.

(** ** Invariants of the count table, and what the sampler can return *)

Module InvariantFacts.
Import StrFacts DictFacts CounterFacts UnknownFacts FitFacts GenerateFacts.

Lemma In_get_default_list :
  forall (W : Type) (c : list (string * list W)) w x,
    In x (Dict.get_default [] w c) -> In (w, Dict.get_default [] w c) c.
Proof.
  intros W c w x. unfold Dict.get_default.
  destruct (Dict.get w c) as [d|] eqn:E; [|intros []].
  intros _. now apply get_Some_In.
Qed.

Section ThirdKeys.
Variable P : string -> Prop.

Lemma third_keys_nil : third_keys P [].
Proof. intros k1 d1 k2 d2 k3 n []. Qed.

Lemma third_keys_context_of :
  forall c w1 w2 w3,
    third_keys P c -> In w3 (Dict.keys (context_of c w1 w2)) -> P w3.
Proof.
  intros c w1 w2 w3 Hc Hin. unfold Dict.keys in Hin.
  apply in_map_iff in Hin as [[k n] [E Hin]]. simpl in E. subst k.
  unfold context_of in Hin.
  pose proof (In_get_default_list _ _ _ _ Hin) as H2.
  pose proof (In_get_default_list _ _ _ _ H2) as H1.
  exact (Hc _ _ _ _ _ _ H1 H2 Hin).
Qed.

Lemma third_keys_incr_trigram :
  forall c w1 w2 w3,
    third_keys P c -> P w3 -> third_keys P (incr_trigram w1 w2 w3 c).
Proof.
  intros c w1 w2 w3 Hc Hw k1 d1 k2 d2 k3 n H1 H2 H3.
  unfold incr_trigram in H1.
  apply In_set in H1 as [[-> ->]|H1]; [|exact (Hc _ _ _ _ _ _ H1 H2 H3)].
  apply In_set in H2 as [[-> ->]|H2].
  - unfold Dict.incr in H3. apply In_set in H3 as [[-> _]|H3]; [exact Hw|].
    apply (third_keys_context_of c w1 w2 k3 Hc).
    unfold Dict.keys, context_of. apply in_map_iff. now exists (k3, n).
  - pose proof (In_get_default_list _ _ _ _ H2) as H1.
    exact (Hc _ _ _ _ _ _ H1 H2 H3).
Qed.

Lemma third_keys_count_trigrams :
  forall p c,
    third_keys P c -> Forall P (skipn 2 p) -> third_keys P (count_trigrams p c).
Proof.
  induction p as [|a tl IH]; intros c Hc Hp.
  - now rewrite count_trigrams_short by (simpl; lia).
  - destruct tl as [|b [|x r]];
      try (now rewrite count_trigrams_short by (simpl; lia)).
    rewrite count_trigrams_window. cbn [skipn] in Hp.
    inversion Hp as [|? ? Hx Hr]; subst.
    apply IH; [now apply third_keys_incr_trigram | exact Hr].
Qed.

Lemma Forall_substitute :
  forall wc T tokens,
    P UNK_TOKEN -> Forall P tokens -> Forall P (map (substitute wc T) tokens).
Proof.
  intros wc T tokens Hu H. induction H as [|t r Ht Hr IH]; simpl;
    constructor; [|exact IH].
  unfold substitute. destruct (in_list t _); [exact Ht|].
  destruct (_ <=? _)%Z; assumption.
Qed.

Lemma third_keys_fit :
  forall m text,
    P UNK_TOKEN -> P END_TOKEN ->
    Forall P (_tokenize (_clean_text text)) ->
    third_keys P (counts m) -> third_keys P (counts (fit m text)).
Proof.
  intros m text Hu He Ht Hc. rewrite fit_counts.
  apply third_keys_count_trigrams; [exact Hc|].
  unfold padded_tokens_of. rewrite handle_unknown_words_fst.
  pose proof (Forall_substitute
    (count_words (_tokenize (_clean_text text))) (unk_threshold m) _ Hu Ht)
    as Hf.
  destruct (map _ (_tokenize (_clean_text text))) as [|t r]; [constructor|].
  cbn [_add_padding app skipn].
  change (Forall P ((t :: r) ++ [END_TOKEN])).
  apply Forall_app. split; [exact Hf|]. now constructor.
Qed.

End ThirdKeys.

(** Every stored third token of a reachable model is a word of [split()] or
    a reserved marker: it is not empty and holds no whitespace. *)
Lemma reachable_third_keys_wordlike :
  forall m, reachable m -> third_keys (fun w => wordlike w = true) (counts m).
Proof.
  induction 1 as [T|m text Hm IH].
  - apply third_keys_nil.
  - apply third_keys_fit; try reflexivity; [|exact IH].
    apply split_wordlike.
Qed.

Lemma start_free_third_keys :
  forall m, reachable_start_free m ->
    third_keys (fun w => w <> START_TOKEN) (counts m).
Proof.
  induction 1 as [T|m text Hm IH Htext].
  - apply third_keys_nil.
  - apply third_keys_fit; try discriminate; [|exact IH].
    apply Forall_forall. intros w Hw E. subst w. contradiction.
Qed.

Lemma bisect_le : forall a x hi, bisect a x hi <= hi.
Proof.
  induction a as [|c r IH]; intros x [|h]; simpl; try lia.
  destruct (Qle_bool c x); [|lia]. specialize (IH x h). lia.
Qed.

Lemma choices1_In :
  forall population weights g,
    population <> [] ->
    In (fst (choices1 population weights g)) population /\
    snd (choices1 population weights g) = mkRandom (S (draws g)) (source g).
Proof.
  intros population weights g Hne. unfold choices1, random. simpl. split.
  - apply nth_In.
    pose proof (bisect_le (accumulate weights)
      (source g (draws g) * last (accumulate weights) 0)%Q
      (length population - 1)) as Hle.
    destruct population; [congruence|]. simpl in *. lia.
  - reflexivity.
Qed.

(** The sampler either takes the END short cut, leaving the random source
    alone, or makes one draw and returns a word of the distribution. *)
Lemma sample_cases :
  forall m w1 w2 g,
    (_get_next_word_probabilities m w1 w2 = [] /\
     _sample_next_word m w1 w2 g = (END_TOKEN, g)) \/
    (In (fst (_sample_next_word m w1 w2 g))
        (map fst (_get_next_word_probabilities m w1 w2)) /\
     draws (snd (_sample_next_word m w1 w2 g)) = S (draws g)).
Proof.
  intros m w1 w2 g. unfold _sample_next_word.
  destruct (_get_next_word_probabilities m w1 w2) as [|p ps] eqn:E.
  - left. now split.
  - right.
    destruct (choices1_In (map fst (p :: ps)) (map snd (p :: ps)) g)
      as [Hin Hg]; [discriminate|].
    split; [exact Hin|]. now rewrite Hg.
Qed.

Lemma generate_loop_spec :
  forall n m w1 w2 acc g,
    exists new,
      fst (generate_loop n m w1 w2 acc g) = acc ++ new /\
      length new <= n /\
      draws g <= draws (snd (generate_loop n m w1 w2 acc g)) /\
      draws (snd (generate_loop n m w1 w2 acc g)) <= draws g + n /\
      Forall (emitted_ok m) new.
Proof.
  induction n as [|n IH]; intros m w1 w2 acc g.
  - exists []. simpl. rewrite app_nil_r. repeat split; try lia. constructor.
  - cbn [generate_loop].
    pose proof (sample_cases m w1 w2 g) as Hs.
    destruct (_sample_next_word m w1 w2 g) as [next g'] eqn:Es.
    cbn [fst snd] in Hs.
    assert (Hg : draws g <= draws g' <= S (draws g)).
    { destruct Hs as [[_ [= _ ->]]|[_ Hd]]; lia. }
    destruct (String.eqb next END_TOKEN) eqn:Eend.
    + exists []. simpl. rewrite app_nil_r. repeat split; try lia. constructor.
    + assert (Hin : In next (map fst (_get_next_word_probabilities m w1 w2))).
      { destruct Hs as [[_ [= -> _]]|[Hin _]]; [discriminate Eend|exact Hin]. }
      apply String.eqb_neq in Eend.
      destruct (in_list next [START_TOKEN; END_TOKEN; UNK_TOKEN]) eqn:Esp;
        cbn [negb].
      * destruct (String.eqb next UNK_TOKEN) eqn:Eunk.
        -- apply String.eqb_eq in Eunk. subst next.
           destruct (IH m w2 UNK_TOKEN (acc ++ [UNK_TOKEN]) g')
             as [new [E [Hl [Hd1 [Hd2 Hok]]]]].
           exists (UNK_TOKEN :: new). rewrite E, <- app_assoc.
           repeat split; simpl; try lia.
           constructor; [|exact Hok].
           repeat split; try discriminate. now left.
        -- destruct (IH m w2 next acc g') as [new [E [Hl [Hd1 [Hd2 Hok]]]]].
           exists new. rewrite E. repeat split; try lia. exact Hok.
      * destruct (IH m w2 next (acc ++ [next]) g')
          as [new [E [Hl [Hd1 [Hd2 Hok]]]]].
        exists (next :: new). rewrite E, <- app_assoc.
        repeat split; simpl; try lia.
        constructor; [|exact Hok].
        apply in_list_false in Esp.
        repeat split.
        -- intro H. apply Esp. subst next. simpl. auto.
        -- exact Eend.
        -- right. now exists w1, w2.
Qed.

Lemma generate_spec :
  forall m max_length seed_text g,
    exists ws,
      fst (generate m max_length seed_text g) = Str.join ws /\
      length ws <= Z.to_nat max_length /\
      draws g <= draws (snd (generate m max_length seed_text g)) /\
      draws (snd (generate m max_length seed_text g))
        <= draws g + Z.to_nat max_length /\
      Forall (emitted_ok m) ws.
Proof.
  intros m max_length seed_text g. unfold generate, generate_words.
  destruct (trained m); cbn [negb].
  2:{ exists []. simpl. repeat split; try lia. constructor. }
  destruct (counts m) eqn:Ec.
  { exists []. simpl. repeat split; try lia. constructor. }
  clear Ec.
  destruct (match seed_text with
            | Some p => p
            | None => (START_TOKEN, START_TOKEN)
            end) as [w1 w2].
  destruct (generate_loop_spec (Z.to_nat max_length) m w1 w2 [] g)
    as [ws [E H]].
  destruct (generate_loop (Z.to_nat max_length) m w1 w2 [] g) as [ws' g'].
  simpl in *. subst ws'. exists ws. split; [reflexivity|exact H].
Qed.

Lemma emitted_ok_wordlike :
  forall m w,
    third_keys (fun w => wordlike w = true) (counts m) ->
    emitted_ok m w -> wordlike w = true.
Proof.
  intros m w Hc [_ [_ [->|[a [b Hin]]]]]; [reflexivity|].
  apply probabilities_words in Hin.
  exact (third_keys_context_of _ _ _ _ _ Hc Hin).
Qed.

Lemma wordlike_no_space : forall w, wordlike w = true -> no_space w = true.
Proof. intros w H. unfold wordlike in H. now apply andb_prop in H. Qed.

Lemma filter_wordlike :
  forall ws, Forall (fun w => wordlike w = true) ws ->
    filter (fun w => negb (Str.is_empty w)) ws = ws.
Proof.
  induction 1 as [|w r Hw Hr IH]; simpl; [reflexivity|].
  unfold wordlike in Hw. apply andb_prop in Hw as [Hw _].
  now rewrite Hw, IH.
Qed.

(** Splitting the joined words on single spaces gives the words back. *)
Lemma split_on_join_words :
  forall ws, Forall (fun w => wordlike w = true) ws ->
    Str.split_on " " (Str.join ws) = match ws with [] => [""] | _ => ws end /\
    words_of (Str.join ws) = ws.
Proof.
  intros ws H. unfold words_of. destruct ws as [|w r]; [now split|].
  rewrite split_on_join.
  - split; [reflexivity|now apply filter_wordlike].
  - eapply Forall_impl; [|exact H]. apply wordlike_no_space.
  - discriminate.
Qed.

End InvariantFacts.

(** ** The distribution in terms of the table's entries *)

Module DistributionFacts.
Import DictFacts GenerateFacts.






End DistributionFacts.

(** * The claims *)

Import StrFacts DictFacts CounterFacts UnknownFacts FitFacts.

(** ** Normalisation *)

(** C9. Cleaning is idempotent: for every string [x],
    [_clean_text (_clean_text x) = _clean_text x], where cleaning lowercases,
    turns each run of whitespace into one space and trims both ends. *)
Theorem clean_text_idempotent :
  forall x, _clean_text (_clean_text x) = _clean_text x.
Proof.
  intro x. unfold _clean_text, Str.sub_ws.
  rewrite lower_strip, lower_sub_ws_from, lower_idem.
  set (y := Str.sub_ws_from false (Str.lower x)).
  assert (Hy : single_spaced false y = true)
    by apply single_spaced_sub_ws_from.
  rewrite sub_ws_from_fixed.
  - apply strip_idem.
  - unfold Str.strip. apply (single_spaced_lstrip _ false).
    now apply single_spaced_rstrip.
Qed.

(** ** Training *)

(** C1. Count conservation: after [fit] on a freshly constructed model, the
    sum of the stored counts of any context [(w1, w2)] is the number of
    positions of the padded training sequence at which [w1], [w2] are
    followed by a third token; on a model that already holds counts the same
    number is added to the mass the context had before. *)
Theorem count_conservation :
  forall threshold text w1 w2,
    context_total (counts (fit (init threshold) text)) w1 w2
    = context_occurrences w1 w2 (padded_tokens_of threshold [] text)
    /\ forall m,
         context_total (counts (fit m text)) w1 w2
         = context_total (counts m) w1 w2
           + context_occurrences w1 w2
               (padded_tokens_of (unk_threshold m) (vocab m) text).
Proof.
  intros threshold text w1 w2. split.
  - rewrite fit_counts, context_total_count_trigrams. reflexivity.
  - intro m. now rewrite fit_counts, context_total_count_trigrams.
Qed.

(** C4, as stated, fails on a text that is not empty but holds whitespace
    only: the guard of [fit] returns before anything is counted. *)
Lemma fit_whitespace_text_leaves_table_empty :
  Str.is_empty " " = false /\
  trained (fit (init 1) " ") = true /\
  counts (fit (init 1) " ") = [].
Proof. repeat split. Qed.

(** C4 (amended). For every text with at least one character that is not
    whitespace, and every model state, after [fit] the trained flag is true
    and the count table is not empty. *)
Theorem fit_nonblank_trained_nonempty :
  forall m text,
    all_space text = false ->
    trained (fit m text) = true /\ counts (fit m text) <> [].
Proof.
  intros m text H. split; [apply fit_trained|].
  rewrite fit_counts. unfold padded_tokens_of.
  apply count_trigrams_padding_not_nil.
  intro E. apply (tokens_not_blank text H).
  apply length_zero_iff_nil. rewrite <- (handle_unknown_words_length
    (unk_threshold m) (vocab m)). now rewrite E.
Qed.

Lemma fit_nonblank_trained_nonempty_witness :
  trained (fit (init 1) "the cat") = true /\
  counts (fit (init 1) "the cat") <> [].
Proof. apply (fit_nonblank_trained_nonempty (init 1) "the cat"). reflexivity. Defined.

(** C7. Degenerate inputs: [fit] on an empty or whitespace-only text sets the
    trained flag and leaves the count table and the vocabulary as they were
    (empty on a fresh model); [generate] on a model that is not trained, or
    whose count table is empty, returns the empty string and leaves the
    random source untouched. *)
Theorem degenerate_inputs :
  (forall m text,
      all_space text = true ->
      trained (fit m text) = true /\
      counts (fit m text) = counts m /\
      vocab (fit m text) = vocab m /\
      unk_threshold (fit m text) = unk_threshold m) /\
  (forall threshold text,
      all_space text = true ->
      counts (fit (init threshold) text) = [] /\
      vocab (fit (init threshold) text) = []) /\
  (forall m max_length seed_text g,
      trained m = false \/ counts m = [] ->
      generate m max_length seed_text g = (EmptyString, g)).
Proof.
  repeat split; try (rewrite (fit_blank _ _ H); reflexivity).
  intros m max_length seed_text g [H|H]; unfold generate, generate_words.
  - now rewrite H.
  - rewrite H. now destruct (trained m).
Qed.

Lemma degenerate_inputs_witness :
  counts (fit (init 1) "  ") = [] /\
  generate (init 1) 50 None zero_source = (EmptyString, zero_source).
Proof.
  destruct degenerate_inputs as [_ [Hfit Hgen]]. split.
  - apply (Hfit 1%Z "  "). reflexivity.
  - apply (Hgen (init 1) 50%Z None zero_source). left. reflexivity.
Defined.

(** ** Unknown-word substitution *)

(** C3, as stated, fails on a token equal to the START marker: with
    threshold 1 it is written unchanged although its frequency, whether read
    from the first pass or counted in the sequence, is not above 1. *)
Lemma unknown_words_keeps_start_token :
  let tokens := [START_TOKEN] in
  let out := fst (_handle_unknown_words 1 [] tokens) in
  nth_error out 0 = Some START_TOKEN /\
  nth_error out 0 <> Some UNK_TOKEN /\
  ~ (1 < Z.of_nat (raw_frequency tokens START_TOKEN))%Z /\
  ~ (1 < Z.of_nat (count_occ string_dec tokens START_TOKEN))%Z.
Proof.
  cbv zeta. repeat split; try discriminate; vm_compute; intro H; discriminate H.
Qed.

(** C3 (amended). For every threshold and token sequence the substitution
    pass returns a sequence of the same length.  A START or END token is
    written unchanged.  Any other token is written unchanged when its
    first-pass frequency is above the threshold and is replaced by UNKNOWN
    otherwise; for a token that is none of the three reserved ones that
    frequency is its number of occurrences, and the token is written as
    itself iff the frequency is above the threshold. *)
Theorem unknown_word_substitution :
  forall threshold vocab tokens,
    let out := fst (_handle_unknown_words threshold vocab tokens) in
    length out = length tokens /\
    forall i token,
      nth_error tokens i = Some token ->
      (In token [START_TOKEN; END_TOKEN] -> nth_error out i = Some token) /\
      (~ In token [START_TOKEN; END_TOKEN] ->
         ((threshold < Z.of_nat (raw_frequency tokens token))%Z ->
            nth_error out i = Some token) /\
         ((Z.of_nat (raw_frequency tokens token) <= threshold)%Z ->
            nth_error out i = Some UNK_TOKEN)) /\
      (~ In token [START_TOKEN; END_TOKEN; UNK_TOKEN] ->
         raw_frequency tokens token = count_occ string_dec tokens token /\
         (nth_error out i = Some token <->
          (threshold < Z.of_nat (raw_frequency tokens token))%Z)).
Proof.
  intros threshold vocab tokens out. subst out.
  split; [apply handle_unknown_words_length|]. intros i token Hi.
  rewrite handle_unknown_words_fst, nth_error_map, Hi. cbn [option_map].
  unfold substitute. fold (raw_frequency tokens token).
  repeat split.
  - intro H. apply in_list_true in H. now rewrite H.
  - intros Hlt. apply in_list_false in H. rewrite H.
    destruct (Z.leb_spec (Z.of_nat (raw_frequency tokens token)) threshold);
      [lia|reflexivity].
  - intros Hle. apply in_list_false in H. rewrite H.
    destruct (Z.leb_spec (Z.of_nat (raw_frequency tokens token)) threshold);
      [reflexivity|lia].
  - rewrite raw_frequency_spec. apply in_list_false in H. now rewrite H.
  - assert (H2 : in_list token [START_TOKEN; END_TOKEN] = false).
    { apply in_list_false. intro Hin. apply H. simpl in *. tauto. }
    rewrite H2.
    destruct (Z.leb_spec (Z.of_nat (raw_frequency tokens token)) threshold);
      [|lia].
    intros [= E]. exfalso. apply H. simpl. auto.
  - assert (H2 : in_list token [START_TOKEN; END_TOKEN] = false).
    { apply in_list_false. intro Hin. apply H. simpl in *. tauto. }
    rewrite H2. intro Hlt.
    destruct (Z.leb_spec (Z.of_nat (raw_frequency tokens token)) threshold);
      [lia|reflexivity].
Qed.

Lemma unknown_word_substitution_witness :
  fst (_handle_unknown_words 1 [] ["a"; "b"; "a"]) = ["a"; "<unk>"; "a"] /\
  (nth_error (fst (_handle_unknown_words 1 [] ["a"; "b"; "a"])) 1 = Some "b"
   <-> (1 < Z.of_nat (raw_frequency ["a"; "b"; "a"] "b"))%Z).
Proof.
  split; [reflexivity|].
  apply (proj2 (unknown_word_substitution 1 [] ["a"; "b"; "a"]) 1 "b" eq_refl).
  simpl. intros [H|[H|[H|[]]]]; discriminate H.
Defined.

(** ** Next-token distribution *)

Import GenerateFacts.

Import DistributionFacts.



(** C5, as stated, fails: the tokenizer splits on whitespace only, so the
    word after [the cat] is [sat.] with its full stop, and [sat] gets no
    probability in either context. *)
Lemma scenario_has_no_sat_token :
  ~ In "sat" (map fst (_get_next_word_probabilities scenario_model "the" "cat"))
  /\
  ~ In "sat" (map fst (_get_next_word_probabilities scenario_model "the" "dog")).
Proof.
  split; vm_compute; intros [H|[]]; discriminate H.
Qed.

(** C5 (amended). Training with threshold 0 on the text
    [the cat sat. the dog sat.] gives, for the context [(the, cat)] and for
    the context [(the, dog)], the distribution with the single token [sat.]
    (full stop included) at probability 1. *)
Theorem scenario_distributions :
  _get_next_word_probabilities scenario_model "the" "cat" = [("sat.", 1%Q)] /\
  _get_next_word_probabilities scenario_model "the" "dog" = [("sat.", 1%Q)].
Proof. split; vm_compute; reflexivity. Qed.

(** ** Sampler and generator *)

(** C6. When the distribution of a context is empty the sampler returns END
    and hands back the random source as it received it, whatever that source
    is; [generate] seeded with such a context, in particular one absent from
    the table, returns the empty string with the random source untouched. *)
Theorem end_short_circuit :
  forall m w1 w2,
    (_get_next_word_probabilities m w1 w2 = [] ->
       (forall g, _sample_next_word m w1 w2 g = (END_TOKEN, g)) /\
       (forall g g',
          fst (_sample_next_word m w1 w2 g)
          = fst (_sample_next_word m w1 w2 g')) /\
       (forall max_length g,
          generate m max_length (Some (w1, w2)) g = (EmptyString, g))) /\
    (context_present (counts m) w1 w2 = false ->
       forall max_length g,
         generate m max_length (Some (w1, w2)) g = (EmptyString, g)
         /\ draws (snd (generate m max_length (Some (w1, w2)) g)) = draws g).
Proof.
  intros m w1 w2. split.
  - intro H. repeat split.
    + intro g. now apply sample_empty.
    + intros g g'. now rewrite !sample_empty.
    + intros max_length g. now apply generate_empty_context.
  - intros H max_length g.
    rewrite generate_empty_context by now apply probabilities_absent.
    split; reflexivity.
Qed.

Lemma end_short_circuit_witness :
  _sample_next_word scenario_model "cat" "dog" zero_source
  = (END_TOKEN, zero_source) /\
  generate scenario_model 50 (Some ("cat", "dog")) zero_source
  = (EmptyString, zero_source).
Proof.
  destruct (end_short_circuit scenario_model "cat" "dog") as [Hempty Habsent].
  split.
  - apply Hempty. reflexivity.
  - apply (Habsent eq_refl 50%Z zero_source).
Defined.

Import InvariantFacts.

(** C8. Length cap: [generate] with [max_length = 0] returns the empty string
    on any model; on every model reached by training, for every seed, random
    source and [max_length >= 0], the returned string is the join of at most
    [max_length] emitted tokens, splitting it on single spaces gives at most
    [max_length] words, and the loop makes at most [max_length] draws. *)
Theorem generate_length_cap :
  (forall m seed_text g, generate m 0 seed_text g = (EmptyString, g)) /\
  (forall m max_length seed_text g,
     reachable m -> (0 <= max_length)%Z ->
     let out := fst (generate m max_length seed_text g) in
     let g' := snd (generate m max_length seed_text g) in
     (exists ws,
        out = Str.join ws /\ words_of out = ws /\
        (Z.of_nat (length ws) <= max_length)%Z) /\
     (Z.of_nat (length (words_of out)) <= max_length)%Z /\
     ((0 < max_length)%Z ->
        (Z.of_nat (length (Str.split_on " " out)) <= max_length)%Z) /\
     (Z.of_nat (draws g) <= Z.of_nat (draws g')
      <= Z.of_nat (draws g) + max_length)%Z).
Proof.
  split.
  - intros m seed_text g. unfold generate, generate_words.
    destruct (trained m); [|reflexivity]. cbn [negb].
    destruct (counts m); [reflexivity|].
    destruct seed_text as [[w1 w2]|]; reflexivity.
  - intros m max_length seed_text g Hm Hmax out g'. subst out g'.
    destruct (generate_spec m max_length seed_text g)
      as [ws [E [Hlen [Hd1 [Hd2 Hok]]]]].
    assert (Hw : Forall (fun w => wordlike w = true) ws).
    { eapply Forall_impl; [|exact Hok]. intros w.
      apply emitted_ok_wordlike. now apply reachable_third_keys_wordlike. }
    destruct (split_on_join_words ws Hw) as [Hsplit Hwords].
    rewrite E, Hwords. split; [|split; [|split]].
    + exists ws. split; [reflexivity|]. split; [reflexivity|lia].
    + lia.
    + intro Hpos. rewrite Hsplit. destruct ws; simpl in *; lia.
    + lia.
Qed.

Lemma generate_length_cap_witness :
  (Z.of_nat (length (words_of (fst (generate scenario_model 3 None zero_source))))
   <= 3)%Z.
Proof.
  destruct generate_length_cap as [_ H].
  apply (H scenario_model 3%Z None zero_source).
  - apply reach_fit, reach_init.
  - lia.
Defined.

(** ** The START marker *)

(** C10, as stated, fails on a text that contains the literal word
    [<start>]: the substitution pass writes it unchanged, the counter stores
    it as a third component, and the sampler can return it. *)
Lemma start_token_stored_as_third :
  let m := fit (init 1) "a <start> b" in
  reachable m /\
  trigram_count (counts m) START_TOKEN UNK_TOKEN START_TOKEN = 1 /\
  In START_TOKEN
    (map fst (_get_next_word_probabilities m START_TOKEN UNK_TOKEN)) /\
  fst (_sample_next_word m START_TOKEN UNK_TOKEN zero_source) = START_TOKEN.
Proof.
  cbv zeta. split; [apply reach_fit, reach_init|].
  split; [reflexivity|]. split; [vm_compute; now left|reflexivity].
Qed.

(** C10 (amended). In every model state reached by training on texts none of
    whose tokens is the literal word [<start>], START is never the third
    component of a stored trigram, has count zero and no entry in every
    next-token distribution, and is never returned by the sampler.  In every
    state reached by training on any texts, START is never a word of the
    string that [generate] returns. *)
Theorem start_token_confined :
  (forall m,
     reachable_start_free m ->
     third_keys (fun w => w <> START_TOKEN) (counts m) /\
     (forall w1 w2,
        trigram_count (counts m) w1 w2 START_TOKEN = 0 /\
        ~ In START_TOKEN (map fst (_get_next_word_probabilities m w1 w2))) /\
     (forall w1 w2 g, fst (_sample_next_word m w1 w2 g) <> START_TOKEN)) /\
  (forall m max_length seed_text g,
     reachable m ->
     ~ In START_TOKEN
         (Str.split_on " " (fst (generate m max_length seed_text g)))).
Proof.
  split.
  - intros m Hm. pose proof (start_free_third_keys m Hm) as Hc.
    assert (Hkeys : forall w1 w2,
      ~ In START_TOKEN (Dict.keys (context_of (counts m) w1 w2))).
    { intros w1 w2 Hin.
      now apply (third_keys_context_of _ _ _ _ _ Hc Hin). }
    split; [exact Hc|]. split.
    + intros w1 w2. split.
      * unfold trigram_count, Dict.get_default.
        destruct (Dict.get START_TOKEN (context_of (counts m) w1 w2))
          as [n|] eqn:E; [|reflexivity].
        exfalso. apply (Hkeys w1 w2). apply get_Some_In in E.
        unfold Dict.keys. apply in_map_iff. now exists (START_TOKEN, n).
      * intro Hin. apply (Hkeys w1 w2). now apply probabilities_words.
    + intros w1 w2 g E.
      destruct (sample_cases m w1 w2 g) as [[_ Hs]|[Hin _]].
      * rewrite Hs in E. discriminate E.
      * rewrite E in Hin. apply (Hkeys w1 w2).
        now apply probabilities_words.
  - intros m max_length seed_text g Hm Hin.
    destruct (generate_spec m max_length seed_text g)
      as [ws [E [_ [_ [_ Hok]]]]].
    assert (Hw : Forall (fun w => wordlike w = true) ws).
    { eapply Forall_impl; [|exact Hok]. intros w.
      apply emitted_ok_wordlike. now apply reachable_third_keys_wordlike. }
    destruct (split_on_join_words ws Hw) as [Hsplit _].
    rewrite E, Hsplit in Hin. destruct ws as [|w r].
    + destruct Hin as [H|[]]. discriminate H.
    + rewrite Forall_forall in Hok. destruct (Hok _ Hin) as [Hne _].
      now apply Hne.
Qed.

Lemma start_token_confined_witness :
  trigram_count (counts scenario_model) "<start>" "<start>" START_TOKEN = 0 /\
  ~ In START_TOKEN
      (Str.split_on " "
         (fst (generate (fit (init 0) "a <start> b c") 50 None zero_source))).
Proof.
  destruct start_token_confined as [Hfree Hany]. split.
  - apply (Hfree scenario_model).
    apply start_free_fit; [apply start_free_init|].
    vm_compute. intuition discriminate.
  - apply (Hany (fit (init 0) "a <start> b c") 50%Z None zero_source).
    apply reach_fit, reach_init.
Defined.

(** * Further properties of the model *)

(** ** Counting: single trigrams, the whole table, order of training *)

Module CountingMore.
Import DictFacts CounterFacts UnknownFacts FitFacts.

Lemma trigram_count_incr :
  forall c w1 w2 w3 a b x,
    trigram_count (incr_trigram w1 w2 w3 c) a b x
    = trigram_count c a b x
      + (if String.eqb w1 a && String.eqb w2 b && String.eqb w3 x
         then 1 else 0).
Proof.
  intros. unfold trigram_count.
  destruct (String.eqb w1 a) eqn:E1; [destruct (String.eqb w2 b) eqn:E2|];
    cbn [andb].
  - apply String.eqb_eq in E1, E2. subst. rewrite context_of_incr_same.
    destruct (String.eqb w3 x) eqn:E3.
    + apply String.eqb_eq in E3. subst. rewrite get_default_incr_same. lia.
    + apply String.eqb_neq in E3. rewrite get_default_incr_other by exact E3.
      lia.
  - apply String.eqb_neq in E2.
    rewrite context_of_incr_other; [lia|congruence].
  - apply String.eqb_neq in E1.
    rewrite context_of_incr_other; [lia|congruence].
Qed.

Lemma trigram_count_count_trigrams :
  forall p c w1 w2 w3,
    trigram_count (count_trigrams p c) w1 w2 w3
    = trigram_count c w1 w2 w3 + trigram_occurrences w1 w2 w3 p.
Proof.
  induction p as [|a tl IH]; intros c w1 w2 w3.
  - rewrite count_trigrams_short by (simpl; lia). simpl. lia.
  - destruct tl as [|b [|x r]].
    + rewrite count_trigrams_short by (simpl; lia). simpl. lia.
    + rewrite count_trigrams_short by (simpl; lia). simpl. lia.
    + rewrite count_trigrams_window, IH, trigram_count_incr.
      cbn [trigram_occurrences]. lia.
Qed.

(** The tokens written by the substitution pass do not depend on the
    vocabulary handed in. *)
Lemma padded_tokens_of_vocab :
  forall T v v' text, padded_tokens_of T v text = padded_tokens_of T v' text.
Proof.
  intros. unfold padded_tokens_of. now rewrite !handle_unknown_words_fst.
Qed.

(** X1. [fit] adds to the stored count of every trigram exactly the number
    of positions at which that trigram stands in the padded sequence of the
    text; no stored count ever decreases. *)
Theorem fit_trigram_count :
  forall m text w1 w2 w3,
    trigram_count (counts (fit m text)) w1 w2 w3
    = trigram_count (counts m) w1 w2 w3
      + trigram_occurrences w1 w2 w3
          (padded_tokens_of (unk_threshold m) (vocab m) text)
    /\ trigram_count (counts m) w1 w2 w3
       <= trigram_count (counts (fit m text)) w1 w2 w3.
Proof.
  intros. rewrite fit_counts, trigram_count_count_trigrams. split; lia.
Qed.

(** X2. Training on two texts in either order stores the same count for
    every trigram and the same total for every context. *)
Theorem fit_order_irrelevant :
  forall m text1 text2 w1 w2 w3,
    trigram_count (counts (fit (fit m text1) text2)) w1 w2 w3
    = trigram_count (counts (fit (fit m text2) text1)) w1 w2 w3
    /\ context_total (counts (fit (fit m text1) text2)) w1 w2
       = context_total (counts (fit (fit m text2) text1)) w1 w2.
Proof.
  intros. split.
  - rewrite !fit_counts, !trigram_count_count_trigrams, !fit_unk_threshold.
    rewrite (padded_tokens_of_vocab _ (vocab (fit m text1)) (vocab m) text2).
    rewrite (padded_tokens_of_vocab _ (vocab (fit m text2)) (vocab m) text1).
    lia.
  - rewrite !fit_counts, !context_total_count_trigrams, !fit_unk_threshold.
    rewrite (padded_tokens_of_vocab _ (vocab (fit m text1)) (vocab m) text2).
    rewrite (padded_tokens_of_vocab _ (vocab (fit m text2)) (vocab m) text1).
    lia.
Qed.

Lemma dict_sum_set :
  forall (V : Type) (f : V -> nat) (dflt : V) (d : list (string * V)) k v,
    f dflt = 0 ->
    dict_sum f (Dict.set k v d) + f (Dict.get_default dflt k d)
    = dict_sum f d + f v.
Proof.
  intros V f dflt d k v H0. unfold Dict.get_default.
  induction d as [|[k' v'] r IH]; simpl.
  - rewrite H0. lia.
  - destruct (String.eqb k k'); simpl; lia.
Qed.

Lemma dict_sum_total_nil : dict_sum Dict.total [] = 0.
Proof. reflexivity. Qed.

Lemma table_total_incr :
  forall c w1 w2 w3, table_total (incr_trigram w1 w2 w3 c) = S (table_total c).
Proof.
  intros. unfold table_total, incr_trigram.
  pose proof (dict_sum_set _ (dict_sum Dict.total) [] c w1
    (Dict.set w2 (Dict.incr w3 (Dict.get_default [] w2
       (Dict.get_default [] w1 c))) (Dict.get_default [] w1 c))
    dict_sum_total_nil) as H1.
  pose proof (dict_sum_set _ Dict.total [] (Dict.get_default [] w1 c) w2
    (Dict.incr w3 (Dict.get_default [] w2 (Dict.get_default [] w1 c)))
    total_nil) as H2.
  rewrite total_incr in H2. lia.
Qed.

Lemma table_total_count_trigrams :
  forall p c, table_total (count_trigrams p c) = table_total c + (length p - 2).
Proof.
  induction p as [|a tl IH]; intro c.
  - rewrite count_trigrams_short by (simpl; lia). simpl. lia.
  - destruct tl as [|b [|x r]];
      try (rewrite count_trigrams_short by (simpl; lia); simpl; lia).
    rewrite count_trigrams_window, IH, table_total_incr. simpl. lia.
Qed.

Lemma add_padding_length :
  forall tokens, tokens <> [] -> length (_add_padding tokens) = length tokens + 3.
Proof.
  intros [|t r] H; [congruence|]. cbn [_add_padding app length].
  rewrite length_app. simpl. lia.
Qed.

(** X3. [fit] on a text with at least one character that is not whitespace
    adds one trigram observation per token of the text plus one (the window
    that ends in the END marker); the number of observations in the table
    grows by exactly that. *)
Theorem fit_table_total :
  forall m text,
    all_space text = false ->
    table_total (counts (fit m text))
    = table_total (counts m) + length (_tokenize (_clean_text text)) + 1.
Proof.
  intros m text H. rewrite fit_counts, table_total_count_trigrams.
  unfold padded_tokens_of. rewrite add_padding_length.
  - rewrite handle_unknown_words_length. lia.
  - intro E. apply (tokens_not_blank text H). apply length_zero_iff_nil.
    rewrite <- (handle_unknown_words_length (unk_threshold m) (vocab m)).
    now rewrite E.
Qed.

Lemma fit_table_total_witness :
  table_total (counts (fit (init 1) "the cat sat"))
  = table_total (counts (init 1)) + length (_tokenize (_clean_text "the cat sat")) + 1.
Proof. apply (fit_table_total (init 1) "the cat sat"). reflexivity. Defined.

End CountingMore.

(** ** The shape of the table in reachable states *)

Module TableShape.
Import DictFacts CounterFacts UnknownFacts FitFacts GenerateFacts InvariantFacts.

Section Keys.
Context {V : Type}.
Implicit Types (d : list (string * V)) (k : string) (v : V).

Lemma get_None_keys : forall d k, Dict.get k d = None -> ~ In k (Dict.keys d).
Proof.
  induction d as [|[k' v'] r IH]; intros k H; simpl in *; [tauto|].
  destruct (String.eqb k k') eqn:E; [discriminate|].
  apply String.eqb_neq in E. intros [H'|H']; [congruence|].
  now apply (IH k).
Qed.

Lemma get_Some_keys : forall d k v, Dict.get k d = Some v -> In k (Dict.keys d).
Proof.
  intros d k v H. apply get_Some_In in H. unfold Dict.keys.
  apply in_map_iff. now exists (k, v).
Qed.

Lemma keys_set :
  forall d k v,
    Dict.keys (Dict.set k v d)
    = if Dict.mem k d then Dict.keys d else Dict.keys d ++ [k].
Proof.
  unfold Dict.mem.
  induction d as [|[k' v'] r IH]; intros k v; simpl; [reflexivity|].
  destruct (String.eqb k k') eqn:E; simpl; [reflexivity|].
  rewrite IH. now destruct (Dict.get k r).
Qed.

Lemma NoDup_keys_set :
  forall d k v, NoDup (Dict.keys d) -> NoDup (Dict.keys (Dict.set k v d)).
Proof.
  intros d k v H. rewrite keys_set. unfold Dict.mem.
  destruct (Dict.get k d) eqn:E; [exact H|].
  apply NoDup_app; [exact H | repeat constructor; intros [] |].
  intros x Hx [Hk|[]]. subst x. now apply (get_None_keys d k E).
Qed.

Lemma In_NoDup_get :
  forall d k v, NoDup (Dict.keys d) -> In (k, v) d -> Dict.get k d = Some v.
Proof.
  induction d as [|[k' v'] r IH]; intros k v Hnd Hin; simpl in *; [tauto|].
  inversion Hnd as [|? ? Hnotin Hnd']; subst.
  destruct Hin as [[= -> ->]|Hin].
  - now rewrite String.eqb_refl.
  - destruct (String.eqb k k') eqn:E; [|now apply IH].
    apply String.eqb_eq in E. subst k'. exfalso. apply Hnotin.
    unfold Dict.keys. apply in_map_iff. now exists (k, v).
Qed.
End Keys.

Lemma well_formed_nil : well_formed [].
Proof.
  split; [split|split].
  - apply NoDup_nil.
  - intros k1 d1 [].
  - intros k1 d1 [].
  - intros k1 d1 k2 d2 k3 n [].
Qed.

Lemma total_positive :
  forall d, d <> [] -> (forall k n, In (k, n) d -> 1 <= n) -> 0 < Dict.total d.
Proof.
  intros [|[k n] r] Hne H; [congruence|].
  rewrite total_cons. specialize (H k n (or_introl eq_refl)). lia.
Qed.

Lemma total_ge_entry :
  forall d k n, In (k, n) d -> n <= Dict.total d.
Proof.
  induction d as [|[k' n'] r IH]; intros k n H; [contradiction|].
  rewrite total_cons. destruct H as [[= -> ->]|H]; [lia|].
  specialize (IH k n H). lia.
Qed.

Lemma well_formed_incr_trigram :
  forall c w1 w2 w3, well_formed c -> well_formed (incr_trigram w1 w2 w3 c).
Proof.
  intros c w1 w2 w3 [[Hk0 Hk] [Hne Hpos]].
  unfold incr_trigram.
  set (d1 := Dict.get_default [] w1 c).
  set (d2 := Dict.get_default [] w2 d1).
  assert (Hd1 : forall x, In x d1 -> In (w1, d1) c)
    by (intros x; apply In_get_default_list).
  assert (Hd2 : forall x, In x d2 -> In (w2, d2) d1)
    by (intros x; apply In_get_default_list).
  assert (Hnd1 : NoDup (Dict.keys d1)).
  { destruct d1 as [|x r] eqn:E; [constructor|].
    rewrite <- E in *. apply (Hk w1 d1). apply (Hd1 x). rewrite E. now left. }
  assert (Hnd2 : NoDup (Dict.keys d2)).
  { destruct d2 as [|x r] eqn:E; [constructor|].
    rewrite <- E in *. pose proof (Hd2 x) as H2. rewrite E in H2 at 1.
    specialize (H2 (or_introl eq_refl)).
    destruct d1 as [|y r1] eqn:E1; [contradiction|]. rewrite <- E1 in *.
    pose proof (Hd1 y) as H1. rewrite E1 in H1 at 1.
    specialize (H1 (or_introl eq_refl)).
    now apply (proj2 (Hk w1 d1 H1) w2 d2). }
  repeat split.
  - now apply NoDup_keys_set.
  - apply In_set in H as [[-> ->]|H]; [|now apply (Hk k1 d0)].
    now apply NoDup_keys_set.
  - intros k2 d3 H2.
    apply In_set in H as [[-> ->]|H]; [|now apply (proj2 (Hk k1 d0 H) k2 d3)].
    apply In_set in H2 as [[-> ->]|H2].
    + unfold Dict.incr. now apply NoDup_keys_set.
    + exact (proj2 (Hk w1 d1 (Hd1 _ H2)) k2 d3 H2).
  - apply In_set in H as [[-> ->]|H]; [apply set_not_nil|].
    now apply (Hne k1 d0).
  - intros k2 d3 H2.
    apply In_set in H as [[-> ->]|H]; [|now apply (proj2 (Hne k1 d0 H) k2 d3)].
    apply In_set in H2 as [[-> ->]|H2].
    + unfold Dict.incr. apply set_not_nil.
    + exact (proj2 (Hne w1 d1 (Hd1 _ H2)) k2 d3 H2).
  - intros k1 d0 k2 d3 k3 n H H2 H3.
    apply In_set in H as [[-> ->]|H]; [|exact (Hpos _ _ _ _ _ _ H H2 H3)].
    apply In_set in H2 as [[-> ->]|H2].
    + unfold Dict.incr in H3. apply In_set in H3 as [[-> ->]|H3]; [lia|].
      exact (Hpos _ _ _ _ _ _ (Hd1 _ (Hd2 _ H3)) (Hd2 _ H3) H3).
    + exact (Hpos _ _ _ _ _ _ (Hd1 _ H2) H2 H3).
Qed.

Lemma well_formed_count_trigrams :
  forall p c, well_formed c -> well_formed (count_trigrams p c).
Proof.
  induction p as [|a tl IH]; intros c Hc.
  - now rewrite count_trigrams_short by (simpl; lia).
  - destruct tl as [|b [|x r]];
      try (now rewrite count_trigrams_short by (simpl; lia)).
    rewrite count_trigrams_window. apply IH.
    now apply well_formed_incr_trigram.
Qed.

Lemma reachable_well_formed : forall m, reachable m -> well_formed (counts m).
Proof.
  induction 1 as [T|m text Hm IH].
  - apply well_formed_nil.
  - rewrite fit_counts. now apply well_formed_count_trigrams.
Qed.

End TableShape.

(** ** The next-token distribution and the sampler *)

Module DistributionMore.
Import DictFacts CounterFacts UnknownFacts FitFacts GenerateFacts.
Import InvariantFacts TableShape.

Lemma present_entries :
  forall c w1 w2,
    context_present c w1 w2 = true ->
    In (w1, Dict.get_default [] w1 c) c /\
    In (w2, context_of c w1 w2) (Dict.get_default [] w1 c).
Proof.
  intros c w1 w2 H. unfold context_present, Dict.mem in H.
  apply andb_prop in H as [H1 H2]. unfold context_of, Dict.get_default in *.
  destruct (Dict.get w1 c) as [d1|] eqn:E1; [|discriminate].
  destruct (Dict.get w2 d1) as [d2|] eqn:E2; [|discriminate].
  split; now apply get_Some_In.
Qed.

Lemma absent_context_of :
  forall c w1 w2, context_present c w1 w2 = false -> context_of c w1 w2 = [].
Proof.
  intros c w1 w2 H. unfold context_present, Dict.mem in H.
  unfold context_of, Dict.get_default in *.
  destruct (Dict.get w1 c) as [d1|]; [|reflexivity].
  destruct (Dict.get w2 d1) as [d2|]; [discriminate|reflexivity].
Qed.

Lemma well_formed_context_of :
  forall c w1 w2,
    well_formed c ->
    NoDup (Dict.keys (context_of c w1 w2)) /\
    (forall k n, In (k, n) (context_of c w1 w2) -> 1 <= n) /\
    (context_present c w1 w2 = true -> context_of c w1 w2 <> []).
Proof.
  intros c w1 w2 [[_ Hk] [Hne Hpos]].
  destruct (context_present c w1 w2) eqn:Hp.
  - destruct (present_entries c w1 w2 Hp) as [H1 H2]. repeat split.
    + exact (proj2 (Hk _ _ H1) _ _ H2).
    + intros k n H3. exact (Hpos _ _ _ _ _ _ H1 H2 H3).
    + intros _. exact (proj2 (Hne _ _ H1) _ _ H2).
  - rewrite (absent_context_of c w1 w2 Hp). repeat split.
    + constructor.
    + intros k n [].
    + discriminate.
Qed.

Lemma present_iff_total :
  forall c w1 w2,
    well_formed c ->
    (context_present c w1 w2 = true <-> 0 < context_total c w1 w2).
Proof.
  intros c w1 w2 Hc.
  destruct (well_formed_context_of c w1 w2 Hc) as [_ [Hpos Hne]]. split.
  - intro Hp. unfold context_total. apply total_positive; auto.
  - intro Ht. destruct (context_present c w1 w2) eqn:Hp; [reflexivity|].
    unfold context_total in Ht. rewrite (absent_context_of c w1 w2 Hp) in Ht.
    rewrite total_nil in Ht. lia.
Qed.

(** X4. In every state reached by training, each stored count is at least
    one, and a context is present in the table exactly when its total mass
    is positive, which is exactly when its distribution is not empty: the
    zero-mass branch of the distribution function is never taken. *)
Theorem reachable_context_present :
  forall m w1 w2,
    reachable m ->
    (forall w3 n, In (w3, n) (context_of (counts m) w1 w2) -> 1 <= n) /\
    (context_present (counts m) w1 w2 = true
     <-> 0 < context_total (counts m) w1 w2) /\
    (context_present (counts m) w1 w2 = true
     <-> _get_next_word_probabilities m w1 w2 <> []).
Proof.
  intros m w1 w2 Hm. pose proof (reachable_well_formed m Hm) as Hc.
  destruct (well_formed_context_of _ w1 w2 Hc) as [_ [Hpos Hne]].
  split; [exact Hpos|]. split; [now apply present_iff_total|]. split.
  - intro Hp. rewrite probabilities_present;
      [|exact Hp|now apply present_iff_total].
    intro E. apply map_eq_nil in E. now apply Hne.
  - intro H. destruct (context_present (counts m) w1 w2) eqn:Hp;
      [reflexivity|].
    exfalso. apply H. now apply probabilities_absent.
Qed.

Lemma reachable_context_present_witness :
  context_present (counts scenario_model) "the" "cat" = true
  <-> 0 < context_total (counts scenario_model) "the" "cat".
Proof.
  apply (reachable_context_present scenario_model "the" "cat").
  apply reach_fit, reach_init.
Defined.



End DistributionMore.

(** ** Cleaning and tokenizing *)

Module TextMore.
Import Str StrFacts FitFacts.

Lemma starts_word_sub_ws_from :
  forall s, starts_word (sub_ws_from false s) = starts_word s.
Proof.
  intros [|c r]; simpl; [reflexivity|].
  destruct (isspace c) eqn:Hc; simpl; [reflexivity|]. now rewrite Hc.
Qed.

Lemma split_sub_ws_from : forall s b, split (sub_ws_from b s) = split s.
Proof.
  induction s as [|c r IH]; intro b; simpl; [reflexivity|].
  destruct (isspace c) eqn:Hc.
  - destruct b; [apply IH|]. simpl. apply IH.
  - simpl. now rewrite Hc, starts_word_sub_ws_from, IH.
Qed.

Lemma split_lstrip : forall s, split (lstrip s) = split s.
Proof.
  induction s as [|c r IH]; simpl; [reflexivity|].
  destruct (isspace c) eqn:Hc; [exact IH|]. simpl. now rewrite Hc.
Qed.

Lemma starts_word_all_space :
  forall s, all_space s = true -> starts_word s = false.
Proof.
  intros [|c r] H; simpl in *; [reflexivity|].
  apply andb_prop in H as [Hc _]. now rewrite Hc.
Qed.

Lemma starts_word_rstrip :
  forall s, rstrip s <> "" -> starts_word (rstrip s) = starts_word s.
Proof.
  intros [|c r] H; simpl in *; [reflexivity|].
  destruct (rstrip r); [|reflexivity].
  destruct (isspace c) eqn:Hc; [congruence|]. simpl. now rewrite Hc.
Qed.

Lemma split_rstrip : forall s, split (rstrip s) = split s.
Proof.
  induction s as [|c r IH]; [reflexivity|].
  cbn [rstrip]. destruct (rstrip r) as [|c' r'] eqn:Hr.
  - pose proof (rstrip_empty_all_space r Hr) as Hall.
    cbn [split]. rewrite <- IH. destruct (isspace c) eqn:Hc; [reflexivity|].
    cbn [split]. rewrite Hc. cbn [starts_word].
    now rewrite (starts_word_all_space r Hall).
  - cbn [split]. rewrite <- IH.
    rewrite <- (starts_word_rstrip r) by (rewrite Hr; discriminate).
    now rewrite Hr.
Qed.

Lemma split_strip : forall s, split (strip s) = split s.
Proof. intro s. unfold strip. now rewrite split_lstrip, split_rstrip. Qed.

Lemma starts_word_lower : forall s, starts_word (lower s) = starts_word s.
Proof. intros [|c r]; simpl; [reflexivity|]. now rewrite isspace_lower_char. Qed.

Lemma split_lower : forall s, split (lower s) = map lower (split s).
Proof.
  induction s as [|c r IH]; simpl; [reflexivity|].
  rewrite isspace_lower_char, starts_word_lower, IH.
  destruct (isspace c); [reflexivity|].
  destruct (starts_word r); [|reflexivity].
  destruct (split r); reflexivity.
Qed.

Lemma tokens_of_text :
  forall text, _tokenize (_clean_text text) = map lower (split text).
Proof.
  intro text. unfold _tokenize, _clean_text, sub_ws.
  now rewrite split_strip, split_sub_ws_from, split_lower.
Qed.

Lemma split_starts_word :
  forall s, starts_word s = true -> split s <> [].
Proof.
  intros [|c r] H; simpl in *; [discriminate|].
  apply negb_true_iff in H. rewrite H.
  destruct (starts_word r); [destruct (split r)|]; discriminate.
Qed.

Lemma join_cons_char :
  forall c w ws, join (String c w :: ws) = String c (join (w :: ws)).
Proof. intros c w [|x xs]; reflexivity. Qed.

Lemma single_spaced_starts_word :
  forall s, s <> "" -> single_spaced true s = true -> starts_word s = true.
Proof.
  intros [|c r] Hne H; [congruence|]. simpl in *.
  destruct (isspace c); [|reflexivity].
  rewrite andb_false_r in H. discriminate.
Qed.

Lemma lstrip_starts_word : forall s, starts_word s = true -> lstrip s = s.
Proof.
  intros [|c r] H; simpl in *; [reflexivity|].
  apply negb_true_iff in H. now rewrite H.
Qed.

Lemma rstrip_fixed_tail :
  forall c r, rstrip (String c r) = String c r -> r = "" \/ (r <> "" /\ rstrip r = r).
Proof.
  intros c r H. cbn [rstrip] in H. destruct (rstrip r) as [|c' r'] eqn:Hr.
  - destruct (isspace c); [discriminate|]. injection H as <-. now left.
  - injection H as <-. right. split; [discriminate|reflexivity].
Qed.

(** On a string whose whitespace is isolated single spaces and which does
    not end in whitespace, joining the words gives the string back, up to
    one leading space. *)
Lemma join_split_normal :
  forall s b,
    single_spaced b s = true -> rstrip s = s -> join (split s) = lstrip s.
Proof.
  induction s as [|c r IH]; intros b Hs Hr; [reflexivity|].
  cbn [single_spaced split lstrip] in *.
  destruct (isspace c) eqn:Hc.
  - apply andb_prop in Hs as [_ Hs].
    destruct (rstrip_fixed_tail c r Hr) as [->|[_ Hr']]; [reflexivity|].
    now apply (IH true).
  - destruct (rstrip_fixed_tail c r Hr) as [->|[Hne Hr']]; [reflexivity|].
    specialize (IH false Hs Hr').
    destruct r as [|c' r']; [congruence|]. cbn [starts_word].
    destruct (isspace c') eqn:Hc'; cbn [negb].
    + cbn [single_spaced] in Hs. rewrite Hc' in Hs.
      apply andb_prop in Hs as [Hs Hs']. apply andb_prop in Hs as [Hsp _].
      apply Ascii.eqb_eq in Hsp. subst c'.
      cbn [split lstrip] in *. rewrite Hc' in *.
      destruct (rstrip_fixed_tail _ _ Hr') as [->|[Hne' _]]; [discriminate Hr'|].
      pose proof (single_spaced_starts_word r' Hne' Hs') as Hsw.
      rewrite (lstrip_starts_word r' Hsw) in IH.
      pose proof (split_starts_word r' Hsw) as Hsplit.
      destruct (split r') as [|w ws]; [congruence|].
      unfold join in *.
      change (String.concat " " (String c "" :: w :: ws))
        with (String c (String " " (String.concat " " (w :: ws)))).
      now rewrite IH.
    + assert (Hsw : starts_word (String c' r') = true)
        by (simpl; now rewrite Hc').
      rewrite (lstrip_starts_word _ Hsw) in IH.
      pose proof (split_starts_word _ Hsw) as Hsplit.
      destruct (split (String c' r')) as [|w ws]; [congruence|].
      now rewrite join_cons_char, IH.
Qed.

Lemma clean_text_normal :
  forall text,
    single_spaced true (_clean_text text) = true /\
    rstrip (_clean_text text) = _clean_text text.
Proof.
  intro text. unfold _clean_text, strip, sub_ws. split.
  - apply (single_spaced_lstrip _ false).
    apply single_spaced_rstrip, single_spaced_sub_ws_from.
  - now rewrite rstrip_lstrip, rstrip_idem.
Qed.

Lemma clean_text_join :
  forall text, _clean_text text = join (_tokenize (_clean_text text)).
Proof.
  intro text. destruct (clean_text_normal text) as [Hs Hr].
  unfold _tokenize. rewrite (join_split_normal _ true Hs Hr).
  unfold _clean_text, strip. now rewrite lstrip_idem.
Qed.

(** X8. The tokens of a text are the lowercased whitespace-separated words
    of the raw text: collapsing and trimming whitespace changes no token.
    The cleaned text is those tokens joined by single spaces. *)
Theorem clean_text_tokens :
  forall text,
    _tokenize (_clean_text text) = map lower (split text) /\
    _clean_text text = join (_tokenize (_clean_text text)).
Proof.
  intro text. split; [apply tokens_of_text | apply clean_text_join].
Qed.

Lemma tokens_lower :
  forall text,
    Forall (fun w => wordlike w = true /\ lower w = w)
           (_tokenize (_clean_text text)).
Proof.
  intro text. apply Forall_forall. intros w Hw. split.
  - pose proof (split_wordlike (_clean_text text)) as H.
    rewrite Forall_forall in H. now apply H.
  - rewrite tokens_of_text in Hw. apply in_map_iff in Hw as [w' [<- _]].
    apply lower_idem.
Qed.

(** X9. Every token of a text is a non-empty string without whitespace that
    lowercasing leaves unchanged, and a text has no tokens exactly when it
    is empty or made of whitespace only. *)
Theorem tokens_are_lowercase_words :
  forall text,
    Forall (fun w => wordlike w = true /\ lower w = w)
           (_tokenize (_clean_text text)) /\
    (_tokenize (_clean_text text) = [] <-> all_space text = true).
Proof.
  intro text. split; [apply tokens_lower|]. split.
  - intro E. destruct (all_space text) eqn:H; [reflexivity|].
    now apply tokens_not_blank in H.
  - apply tokens_blank.
Qed.

End TextMore.

(** ** The substitution pass: vocabulary, repeated application, threshold 0 *)

Module UnknownMore.
Import DictFacts UnknownFacts.

Lemma substitute_cases :
  forall wc T t,
    in_list t [START_TOKEN; END_TOKEN] = false ->
    substitute wc T t = t \/ substitute wc T t = UNK_TOKEN.
Proof.
  intros wc T t H. unfold substitute. rewrite H.
  destruct (_ <=? _)%Z; [now right|now left].
Qed.

Lemma substitute_not_boundary :
  forall wc T t,
    in_list t [START_TOKEN; END_TOKEN] = false ->
    in_list (substitute wc T t) [START_TOKEN; END_TOKEN] = false.
Proof.
  intros wc T t H. destruct (substitute_cases wc T t H) as [->| ->];
    [exact H|reflexivity].
Qed.

Lemma replace_word_snd :
  forall wc T acc v t,
    snd (replace_word wc T (acc, v) t)
    = if in_list t [START_TOKEN; END_TOKEN] then v
      else Dict.incr (substitute wc T t) v.
Proof.
  intros. unfold replace_word, substitute.
  destruct (in_list t [START_TOKEN; END_TOKEN]); [reflexivity|].
  destruct (Z.of_nat (Dict.get_default 0%nat t wc) <=? T)%Z; reflexivity.
Qed.

Lemma fold_replace_word_snd :
  forall wc T k tokens acc v,
    Dict.get_default 0 k (snd (fold_left (replace_word wc T) tokens (acc, v)))
    = Dict.get_default 0 k v
      + (if in_list k [START_TOKEN; END_TOKEN] then 0
         else count_occ string_dec (map (substitute wc T) tokens) k).
Proof.
  intros wc T k. induction tokens as [|t r IH]; intros acc v;
    cbn [fold_left map count_occ].
  - cbn [snd]. destruct (in_list k [START_TOKEN; END_TOKEN]); lia.
  - destruct (replace_word wc T (acc, v) t) as [acc' v'] eqn:E.
    rewrite IH. pose proof (replace_word_snd wc T acc v t) as Hv.
    rewrite E in Hv. cbn [snd] in Hv. subst v'.
    destruct (in_list t [START_TOKEN; END_TOKEN]) eqn:Ht.
    + destruct (in_list k [START_TOKEN; END_TOKEN]) eqn:Hk; [lia|].
      destruct (string_dec (substitute wc T t) k) as [Es|Es]; [|lia].
      unfold substitute in Es. rewrite Ht in Es. subst t. congruence.
    + pose proof (substitute_not_boundary wc T t Ht) as Hs.
      destruct (string_dec (substitute wc T t) k) as [Es|Es].
      * rewrite <- Es, Hs, get_default_incr_same. lia.
      * rewrite get_default_incr_other by exact Es.
        destruct (in_list k [START_TOKEN; END_TOKEN]); lia.
Qed.

Lemma count_occ_boundary_out :
  forall wc T k tokens,
    in_list k [START_TOKEN; END_TOKEN] = true ->
    count_occ string_dec (map (substitute wc T) tokens) k
    = count_occ string_dec tokens k.
Proof.
  intros wc T k tokens Hk. induction tokens as [|t r IH]; [reflexivity|].
  cbn [map count_occ]. rewrite IH.
  destruct (in_list t [START_TOKEN; END_TOKEN]) eqn:Ht.
  - unfold substitute. now rewrite Ht.
  - pose proof (substitute_not_boundary wc T t Ht) as Hs.
    destruct (string_dec (substitute wc T t) k) as [E|E];
      [rewrite E in Hs; congruence|].
    destruct (string_dec t k) as [E'|E']; [subst; congruence|reflexivity].
Qed.

(** X10. The vocabulary counts the tokens written by the substitution pass:
    for every word other than START and END its count grows by the number
    of times the word occurs in the output (UNKNOWN by the number of
    replacements and of UNKNOWN tokens passed on), while START and END are
    never counted. *)
Theorem vocabulary_counts_output :
  forall T v tokens k,
    let out := fst (_handle_unknown_words T v tokens) in
    let v' := snd (_handle_unknown_words T v tokens) in
    (In k [START_TOKEN; END_TOKEN] ->
       Dict.get_default 0 k v' = Dict.get_default 0 k v) /\
    (~ In k [START_TOKEN; END_TOKEN] ->
       Dict.get_default 0 k v'
       = Dict.get_default 0 k v + count_occ string_dec out k).
Proof.
  intros T v tokens k out v'. subst out v'.
  rewrite handle_unknown_words_fst. unfold _handle_unknown_words.
  rewrite fold_replace_word_snd. split; intro H.
  - apply in_list_true in H. rewrite H. lia.
  - apply in_list_false in H. now rewrite H.
Qed.

Lemma vocabulary_counts_output_witness :
  Dict.get_default 0 "<unk>"
    (snd (_handle_unknown_words 1 [("<unk>", 4)] ["a"; "b"; "a"; "c"]))
  = 4 + count_occ string_dec
          (fst (_handle_unknown_words 1 [("<unk>", 4)] ["a"; "b"; "a"; "c"]))
          "<unk>".
Proof.
  apply (vocabulary_counts_output 1 [("<unk>", 4)] ["a"; "b"; "a"; "c"] "<unk>").
  simpl. intros [H|[H|[]]]; discriminate H.
Defined.

Lemma substitute_kept_count :
  forall wc T t l,
    in_list t [START_TOKEN; END_TOKEN; UNK_TOKEN] = false ->
    substitute wc T t = t ->
    count_occ string_dec (map (substitute wc T) l) t = count_occ string_dec l t.
Proof.
  intros wc T t l Ht Hs. induction l as [|a r IH]; [reflexivity|].
  cbn [map count_occ]. rewrite IH.
  destruct (string_dec a t) as [->|Hne].
  - rewrite Hs. now destruct (string_dec t t).
  - destruct (string_dec (substitute wc T a) t) as [E|E]; [|reflexivity].
    exfalso. unfold substitute in E.
    destruct (in_list a [START_TOKEN; END_TOKEN]); [congruence|].
    destruct (_ <=? _)%Z; [|congruence].
    subst t. discriminate Ht.
Qed.

Lemma in_list_boundary_reserved :
  forall t,
    in_list t [START_TOKEN; END_TOKEN] = false ->
    t <> UNK_TOKEN ->
    in_list t [START_TOKEN; END_TOKEN; UNK_TOKEN] = false.
Proof.
  intros t H Hne. apply in_list_false. apply in_list_false in H.
  simpl in *. intros [E|[E|[E|[]]]]; [tauto|tauto|congruence].
Qed.

(** X11. Running the substitution pass on its own output changes nothing:
    with the same threshold the output tokens are a fixed point. *)
Theorem unknown_words_idempotent :
  forall T v v' tokens,
    fst (_handle_unknown_words T v'
           (fst (_handle_unknown_words T v tokens)))
    = fst (_handle_unknown_words T v tokens).
Proof.
  intros T v v' tokens. rewrite !handle_unknown_words_fst.
  set (wc := count_words tokens).
  set (out := map (substitute wc T) tokens).
  transitivity (map (fun x : string => x) out); [|apply map_id].
  apply map_ext_in. intros s Hs.
  unfold out in Hs. apply in_map_iff in Hs as [t [Est Ht]].
  destruct (in_list t [START_TOKEN; END_TOKEN]) eqn:Hb.
  - unfold substitute in Est. rewrite Hb in Est. subst s.
    unfold substitute. now rewrite Hb.
  - destruct (string_dec s UNK_TOKEN) as [->|Hunk].
    + unfold substitute. cbn [in_list existsb].
      change (String.eqb UNK_TOKEN START_TOKEN) with false.
      change (String.eqb UNK_TOKEN END_TOKEN) with false. cbn [orb].
      now destruct (_ <=? _)%Z.
    + destruct (substitute_cases wc T t Hb) as [E|E]; [|congruence].
      assert (Hst : s = t) by congruence. clear Est. subst s.
      pose proof (in_list_boundary_reserved t Hb Hunk) as Hr.
      unfold substitute at 1. rewrite Hb.
      fold (raw_frequency out t). rewrite raw_frequency_spec, Hr.
      unfold out. rewrite (substitute_kept_count wc T t tokens Hr E).
      unfold substitute in E. rewrite Hb in E. fold wc in E.
      unfold wc in E. fold (raw_frequency tokens t) in E.
      rewrite raw_frequency_spec, Hr in E.
      destruct (_ <=? _)%Z; [congruence|reflexivity].
Qed.

(** X12. With a threshold of zero or less the substitution pass returns the
    token sequence unchanged: replacement is switched off. *)
Theorem unknown_words_threshold_zero :
  forall T v tokens,
    (T <= 0)%Z -> fst (_handle_unknown_words T v tokens) = tokens.
Proof.
  intros T v tokens HT. rewrite handle_unknown_words_fst.
  transitivity (map (fun x : string => x) tokens); [|apply map_id].
  apply map_ext_in. intros t Ht.
  unfold substitute.
  destruct (in_list t [START_TOKEN; END_TOKEN]) eqn:Hb; [reflexivity|].
  fold (raw_frequency tokens t). rewrite raw_frequency_spec.
  destruct (string_dec t UNK_TOKEN) as [->|Hunk].
  - now destruct (_ <=? _)%Z.
  - rewrite (in_list_boundary_reserved t Hb Hunk).
    pose proof (proj1 (count_occ_In string_dec tokens t) Ht) as Hpos.
    destruct (Z.leb_spec (Z.of_nat (count_occ string_dec tokens t)) T);
      [lia|reflexivity].
Qed.

Lemma unknown_words_threshold_zero_witness :
  fst (_handle_unknown_words 0 [] ["a"; "<unk>"; "b"; "<start>"])
  = ["a"; "<unk>"; "b"; "<start>"].
Proof. apply unknown_words_threshold_zero. lia. Defined.

End UnknownMore.

(** ** Sampling and generation *)

Module GenerationMore.
Import Str StrFacts DictFacts CounterFacts UnknownFacts FitFacts GenerateFacts.
Import InvariantFacts TableShape DistributionMore TextMore.

Lemma listed_positive_count :
  forall m w1 w2 w,
    well_formed (counts m) ->
    In w (map fst (_get_next_word_probabilities m w1 w2)) ->
    0 < trigram_count (counts m) w1 w2 w.
Proof.
  intros m w1 w2 w Hc Hin. apply probabilities_words in Hin.
  destruct (well_formed_context_of _ w1 w2 Hc) as [Hnd [Hpos _]].
  unfold Dict.keys in Hin. apply in_map_iff in Hin as [[k n] [E Hin]].
  simpl in E. subst k. unfold trigram_count, Dict.get_default.
  rewrite (In_NoDup_get _ _ _ Hnd Hin). now apply (Hpos w n).
Qed.

(** X13. In every state reached by training, when the distribution of a
    context is not empty the sampler makes exactly one draw and returns a
    token that followed that context in training (its stored trigram count
    is positive). *)
Theorem sample_returns_observed :
  forall m w1 w2 g,
    reachable m ->
    _get_next_word_probabilities m w1 w2 <> [] ->
    0 < trigram_count (counts m) w1 w2 (fst (_sample_next_word m w1 w2 g)) /\
    snd (_sample_next_word m w1 w2 g) = mkRandom (S (draws g)) (source g).
Proof.
  intros m w1 w2 g Hm Hne.
  pose proof (reachable_well_formed m Hm) as Hc.
  assert (Hin : forall w,
    In w (map fst (_get_next_word_probabilities m w1 w2)) ->
    0 < trigram_count (counts m) w1 w2 w)
    by (intros w; now apply listed_positive_count).
  unfold _sample_next_word.
  destruct (_get_next_word_probabilities m w1 w2) as [|p ps]; [congruence|].
  destruct (choices1_In (map fst (p :: ps)) (map snd (p :: ps)) g)
    as [H1 H2]; [discriminate|].
  split; [now apply Hin | exact H2].
Qed.

Lemma sample_returns_observed_witness :
  0 < trigram_count (counts scenario_model) "the" "cat"
        (fst (_sample_next_word scenario_model "the" "cat" zero_source)).
Proof.
  apply (sample_returns_observed scenario_model "the" "cat" zero_source).
  - apply reach_fit, reach_init.
  - vm_compute. discriminate.
Defined.

Lemma generate_loop_extend :
  forall m n k w1 w2 acc g,
    exists more,
      fst (generate_loop (n + k) m w1 w2 acc g)
      = fst (generate_loop n m w1 w2 acc g) ++ more
      /\ length more <= k.
Proof.
  intros m. induction n as [|n IH]; intros k w1 w2 acc g.
  - destruct (generate_loop_spec k m w1 w2 acc g) as [new [E [Hl _]]].
    exists new. now split.
  - cbn [Nat.add generate_loop].
    destruct (_sample_next_word m w1 w2 g) as [next g'].
    destruct (String.eqb next END_TOKEN).
    + exists []. simpl. rewrite app_nil_r. split; [reflexivity|lia].
    + apply IH.
Qed.

(** X14. Raising [max_length] only appends: with the same model, seed and
    random source, the words generated under a larger cap start with the
    words generated under a smaller one. *)
Theorem generate_words_prefix :
  forall m n n' seed_text g ws,
    (0 <= n <= n')%Z ->
    fst (generate_words m n seed_text g) = Some ws ->
    exists more,
      fst (generate_words m n' seed_text g) = Some (ws ++ more) /\
      (Z.of_nat (length more) <= n' - n)%Z.
Proof.
  intros m n n' seed_text g ws Hn. unfold generate_words.
  destruct (negb (trained m)); [discriminate|].
  destruct (counts m); [discriminate|].
  destruct (match seed_text with
            | Some p => p
            | None => (START_TOKEN, START_TOKEN)
            end) as [w1 w2].
  replace (Z.to_nat n') with (Z.to_nat n + Z.to_nat (n' - n)) by lia.
  destruct (generate_loop_extend m (Z.to_nat n) (Z.to_nat (n' - n)) w1 w2 [] g)
    as [more [E Hl]].
  destruct (generate_loop (Z.to_nat n + Z.to_nat (n' - n)) m w1 w2 [] g)
    as [ws2 g2].
  destruct (generate_loop (Z.to_nat n) m w1 w2 [] g) as [ws1 g1].
  cbn [fst] in *. intros [= <-]. exists more. split; [now rewrite E|lia].
Qed.

Lemma generate_words_prefix_witness :
  exists more,
    fst (generate_words scenario_model 5 None zero_source)
    = Some (["the"; "cat"] ++ more) /\
    (Z.of_nat (length more) <= 5 - 2)%Z.
Proof.
  apply (generate_words_prefix scenario_model 2 5 None zero_source).
  - lia.
  - reflexivity.
Defined.

Lemma reachable_start_free_reachable :
  forall m, reachable_start_free m -> reachable m.
Proof. induction 1; [apply reach_init|now apply reach_fit]. Qed.

Lemma generate_loop_chain :
  forall m,
    well_formed (counts m) ->
    third_keys (fun w => w <> START_TOKEN) (counts m) ->
    forall n w1 w2 acc g,
      exists new,
        fst (generate_loop n m w1 w2 acc g) = acc ++ new /\
        observed_chain (counts m) (w1 :: w2 :: new).
Proof.
  intros m Hc Hs. induction n as [|n IH]; intros w1 w2 acc g.
  - exists []. simpl. rewrite app_nil_r. tauto.
  - cbn [generate_loop].
    pose proof (sample_cases m w1 w2 g) as Hcase.
    destruct (_sample_next_word m w1 w2 g) as [next g'] eqn:Es.
    cbn [fst snd] in Hcase.
    destruct (String.eqb next END_TOKEN) eqn:Eend.
    + exists []. simpl. rewrite app_nil_r. tauto.
    + assert (Hin : In next (map fst (_get_next_word_probabilities m w1 w2))).
      { destruct Hcase as [[_ [= -> _]]|[Hin _]];
          [discriminate Eend|exact Hin]. }
      pose proof (listed_positive_count m w1 w2 next Hc Hin) as Hpos.
      assert (Hns : next <> START_TOKEN).
      { apply probabilities_words in Hin.
        exact (third_keys_context_of _ _ _ _ _ Hs Hin). }
      apply String.eqb_neq in Eend.
      assert (Happ :
        (if negb (in_list next [START_TOKEN; END_TOKEN; UNK_TOKEN])
         then acc ++ [next]
         else if String.eqb next UNK_TOKEN then acc ++ [next] else acc)
        = acc ++ [next]).
      { destruct (in_list next [START_TOKEN; END_TOKEN; UNK_TOKEN]) eqn:El;
          [|reflexivity].
        cbn [negb]. apply in_list_true in El.
        destruct El as [E|[E|[E|[]]]]; try congruence.
        subst next. reflexivity. }
      rewrite Happ.
      destruct (IH w2 next (acc ++ [next]) g') as [new [E Hch]].
      exists (next :: new). rewrite E, <- app_assoc. split; [reflexivity|].
      cbn [observed_chain]. split; [exact Hpos|exact Hch].
Qed.

Lemma generate_unfold :
  forall m max_length seed_text g,
    fst (generate m max_length seed_text g) = "" \/
    fst (generate m max_length seed_text g)
    = join (fst (generate_loop (Z.to_nat max_length) m
                   (fst (initial_context seed_text))
                   (snd (initial_context seed_text)) [] g)).
Proof.
  intros m max_length seed_text g. unfold generate, generate_words.
  destruct (negb (trained m)); [now left|].
  destruct (counts m); [now left|]. right.
  fold (initial_context seed_text).
  destruct (initial_context seed_text) as [w1 w2]. cbn [fst snd].
  now destruct (generate_loop (Z.to_nat max_length) m w1 w2 [] g).
Qed.

Lemma generate_loop_wordlike :
  forall m n w1 w2 g,
    reachable m ->
    Forall (fun w => wordlike w = true) (fst (generate_loop n m w1 w2 [] g)).
Proof.
  intros m n w1 w2 g Hm.
  destruct (generate_loop_spec n m w1 w2 [] g) as [new [E [_ [_ [_ Hok]]]]].
  rewrite E. cbn [app]. eapply Forall_impl; [|exact Hok]. intros w.
  apply emitted_ok_wordlike. now apply reachable_third_keys_wordlike.
Qed.

(** X15. In every state reached by training on texts without the literal
    word [<start>], the text that [generate] returns walks observed
    trigrams only: in the seed context followed by the generated words,
    every three consecutive tokens have a positive stored count. *)
Theorem generated_trigrams_observed :
  forall m max_length seed_text g,
    reachable_start_free m ->
    observed_chain (counts m)
      (fst (initial_context seed_text) :: snd (initial_context seed_text)
       :: words_of (fst (generate m max_length seed_text g))).
Proof.
  intros m max_length seed_text g Hm.
  pose proof (reachable_start_free_reachable m Hm) as Hr.
  destruct (generate_unfold m max_length seed_text g) as [E|E]; rewrite E.
  - simpl. tauto.
  - pose proof (generate_loop_wordlike m (Z.to_nat max_length)
      (fst (initial_context seed_text)) (snd (initial_context seed_text))
      g Hr) as Hw.
    rewrite (proj2 (split_on_join_words _ Hw)).
    destruct (generate_loop_chain m (reachable_well_formed m Hr)
      (start_free_third_keys m Hm) (Z.to_nat max_length)
      (fst (initial_context seed_text)) (snd (initial_context seed_text))
      [] g) as [new [En Hch]].
    rewrite En. exact Hch.
Qed.

Lemma generated_trigrams_observed_witness :
  observed_chain (counts scenario_model)
    ("the" :: "cat"
     :: words_of (fst (generate scenario_model 4 (Some ("the", "cat"))
                         zero_source))).
Proof.
  apply (generated_trigrams_observed scenario_model 4 (Some ("the", "cat"))
           zero_source).
  apply start_free_fit; [apply start_free_init|].
  vm_compute. intuition discriminate.
Defined.

Lemma lower_append :
  forall a b, lower (a ++ b)%string = (lower a ++ lower b)%string.
Proof.
  induction a as [|c r IH]; intro b; simpl; [reflexivity|]. now rewrite IH.
Qed.

Lemma lower_join : forall ws, lower (join ws) = join (map lower ws).
Proof.
  induction ws as [|x xs IH]; [reflexivity|].
  destruct xs as [|y ys]; [reflexivity|].
  unfold join in *.
  change (String.concat " " (x :: y :: ys))
    with (x ++ String " " (String.concat " " (y :: ys)))%string.
  rewrite lower_append. cbn [lower]. rewrite IH. reflexivity.
Qed.

Lemma clean_text_split_lower :
  forall text, _clean_text text = join (split (lower text)).
Proof.
  intro text. rewrite (clean_text_join text) at 1.
  now rewrite tokens_of_text, split_lower.
Qed.

Lemma reachable_third_keys_lower :
  forall m, reachable m ->
    third_keys (fun w => wordlike w = true /\ lower w = w) (counts m).
Proof.
  induction 1 as [T|m text Hm IH].
  - apply third_keys_nil.
  - apply third_keys_fit; try (split; reflexivity); [|exact IH].
    apply tokens_lower.
Qed.

Lemma generate_loop_lower :
  forall m n w1 w2 g,
    reachable m ->
    Forall (fun w => wordlike w = true /\ lower w = w)
           (fst (generate_loop n m w1 w2 [] g)).
Proof.
  intros m n w1 w2 g Hm.
  destruct (generate_loop_spec n m w1 w2 [] g) as [new [E [_ [_ [_ Hok]]]]].
  rewrite E. cbn [app]. eapply Forall_impl; [|exact Hok].
  intros w [_ [_ [->|[a [b Hin]]]]]; [split; reflexivity|].
  apply probabilities_words in Hin.
  exact (third_keys_context_of _ _ _ _ _ (reachable_third_keys_lower m Hm) Hin).
Qed.

(** X16. In every state reached by training, the text that [generate]
    returns is already clean: cleaning it again changes nothing, and
    tokenizing it gives back exactly the generated words. *)
Theorem generated_text_is_clean :
  forall m max_length seed_text g,
    reachable m ->
    let out := fst (generate m max_length seed_text g) in
    _clean_text out = out /\ _tokenize out = words_of out.
Proof.
  intros m max_length seed_text g Hm out. subst out.
  destruct (generate_unfold m max_length seed_text g) as [E|E]; rewrite E.
  - split; reflexivity.
  - pose proof (generate_loop_lower m (Z.to_nat max_length)
      (fst (initial_context seed_text)) (snd (initial_context seed_text))
      g Hm) as Hl.
    set (ws := fst (generate_loop _ _ _ _ _ _)) in *.
    assert (Hw : Forall (fun w => wordlike w = true) ws)
      by (eapply Forall_impl; [|exact Hl]; now intros w [H _]).
    assert (Hlow : map lower ws = ws).
    { transitivity (map (fun x : string => x) ws); [|apply map_id].
      apply map_ext_in. intros w Hin. rewrite Forall_forall in Hl.
      now apply Hl. }
    rewrite (proj2 (split_on_join_words ws Hw)). unfold _tokenize.
    rewrite clean_text_split_lower, lower_join, Hlow, (split_join ws Hw).
    now split.
Qed.

Lemma generated_text_is_clean_witness :
  _clean_text (fst (generate scenario_model 4 None zero_source))
  = fst (generate scenario_model 4 None zero_source).
Proof.
  apply (generated_text_is_clean scenario_model 4 None zero_source).
  apply reach_fit, reach_init.
Defined.

Lemma total_positive_present :
  forall c w1 w2, 0 < context_total c w1 w2 -> context_present c w1 w2 = true.
Proof.
  intros c w1 w2 H. destruct (context_present c w1 w2) eqn:Hp; [reflexivity|].
  unfold context_total in H. rewrite (absent_context_of c w1 w2 Hp) in H.
  rewrite total_nil in H. lia.
Qed.

Lemma fit_start_context_total :
  forall m text,
    all_space text = false ->
    0 < context_total (counts (fit m text)) START_TOKEN START_TOKEN.
Proof.
  intros m text H. rewrite fit_counts, context_total_count_trigrams.
  unfold padded_tokens_of.
  destruct (fst (_handle_unknown_words (unk_threshold m) (vocab m)
                   (_tokenize (_clean_text text)))) as [|t r] eqn:E.
  - exfalso. apply (tokens_not_blank text H). apply length_zero_iff_nil.
    rewrite <- (handle_unknown_words_length (unk_threshold m) (vocab m)).
    now rewrite E.
  - cbn [_add_padding app context_occurrences].
    rewrite String.eqb_refl. cbn [andb]. lia.
Qed.

(** X17. After [fit] on a text with at least one character that is not
    whitespace, the default start context (START, START) is present with a
    non-empty distribution, so [generate] without a seed and with
    [max_length >= 1] draws from the random source at least once. *)
Theorem fit_start_context :
  forall m text,
    all_space text = false ->
    context_present (counts (fit m text)) START_TOKEN START_TOKEN = true /\
    _get_next_word_probabilities (fit m text) START_TOKEN START_TOKEN <> [] /\
    forall max_length g,
      (1 <= max_length)%Z ->
      S (draws g) <= draws (snd (generate (fit m text) max_length None g)).
Proof.
  intros m text H.
  pose proof (fit_start_context_total m text H) as Ht.
  pose proof (total_positive_present _ _ _ Ht) as Hp.
  assert (Hne :
    _get_next_word_probabilities (fit m text) START_TOKEN START_TOKEN <> []).
  { rewrite (probabilities_present _ _ _ Hp Ht). intro E.
    apply map_eq_nil in E. unfold context_total in Ht. rewrite E in Ht.
    rewrite total_nil in Ht. lia. }
  split; [exact Hp|]. split; [exact Hne|].
  intros max_length g Hmax. unfold generate, generate_words.
  rewrite fit_trained. cbn [negb].
  destruct (counts (fit m text)) eqn:Ec.
  { exfalso. revert Ec. rewrite fit_counts. unfold padded_tokens_of.
    apply count_trigrams_padding_not_nil. intro E.
    apply (tokens_not_blank text H). apply length_zero_iff_nil.
    rewrite <- (handle_unknown_words_length (unk_threshold m) (vocab m)).
    now rewrite E. }
  destruct (Z.to_nat max_length) as [|n] eqn:En; [lia|].
  cbn [generate_loop].
  destruct (sample_cases (fit m text) START_TOKEN START_TOKEN g)
    as [[E _]|[_ Hd]]; [congruence|].
  destruct (_sample_next_word (fit m text) START_TOKEN START_TOKEN g)
    as [next g'].
  cbn [snd] in Hd.
  destruct (String.eqb next END_TOKEN); [cbn [snd]; lia|].
  match goal with
  | |- context [generate_loop n ?m ?a ?b ?acc ?g0] =>
      destruct (generate_loop_spec n m a b acc g0) as [new [_ [_ [Hd1 _]]]];
      destruct (generate_loop n m a b acc g0) as [ws g2]
  end.
  cbn [snd] in *. lia.
Qed.

Lemma fit_start_context_witness :
  context_present (counts (fit (init 1) "the cat")) START_TOKEN START_TOKEN
  = true.
Proof. apply (fit_start_context (init 1) "the cat"). reflexivity. Defined.

End GenerationMore.

(** ** Project Gutenberg clean-up and the training pipeline *)

Module GutenbergFacts.
Import Str StrFacts FitFacts TextMore Gutenberg.

Example clean_gutenberg_text_ex :
  let nl := String newline "" in
  clean_gutenberg_text
    ("Title" ++ nl ++ "*** START OF THE PROJECT" ++ nl ++ nl ++ nl ++ nl
     ++ "Hello   World" ++ nl ++ "more  text " ++ nl
     ++ "*** END OF THE PROJECT" ++ nl ++ "license")%string
  = ("Hello World" ++ nl ++ "more text")%string.
Proof. reflexivity. Qed.

Example clean_gutenberg_text_no_marker :
  clean_gutenberg_text "  plain   text  " = "plain text".
Proof. reflexivity. Qed.

Lemma clean_gutenberg_text_body :
  forall text,
    clean_gutenberg_text text
    = strip (sub_spaces (sub_newlines (gutenberg_body text))).
Proof. reflexivity. Qed.

Lemma isspace_newline : isspace newline = true.
Proof. reflexivity. Qed.

Lemma eqb_space_isspace : forall c, Ascii.eqb c " " = true -> isspace c = true.
Proof. intros c H. apply Ascii.eqb_eq in H. now subst. Qed.

Lemma eqb_newline_isspace :
  forall c, Ascii.eqb c newline = true -> isspace c = true.
Proof. intros c H. apply Ascii.eqb_eq in H. now subst. Qed.

Lemma starts_word_sub_newlines :
  forall s, starts_word (sub_newlines_from 0 s) = starts_word s.
Proof.
  intros [|c r]; simpl; [reflexivity|].
  destruct (Ascii.eqb c newline); reflexivity.
Qed.

Lemma split_sub_newlines_from :
  forall s w, split (sub_newlines_from w s) = split s.
Proof.
  induction s as [|c r IH]; intro w; simpl; [reflexivity|].
  destruct (Ascii.eqb c newline) eqn:Hc.
  - rewrite (eqb_newline_isspace c Hc).
    destruct (w <? 2); [|apply IH]. simpl.
    rewrite (eqb_newline_isspace c Hc). apply IH.
  - simpl. now rewrite starts_word_sub_newlines, IH.
Qed.

Lemma starts_word_sub_spaces :
  forall s, starts_word (sub_spaces_from false s) = starts_word s.
Proof.
  intros [|c r]; simpl; [reflexivity|].
  destruct (Ascii.eqb c " "); reflexivity.
Qed.

Lemma split_sub_spaces_from :
  forall s b, split (sub_spaces_from b s) = split s.
Proof.
  induction s as [|c r IH]; intro b; simpl; [reflexivity|].
  destruct (Ascii.eqb c " ") eqn:Hc.
  - rewrite (eqb_space_isspace c Hc).
    destruct b; [apply IH|]. simpl.
    rewrite (eqb_space_isspace c Hc). apply IH.
  - simpl. now rewrite starts_word_sub_spaces, IH.
Qed.

Lemma split_clean_gutenberg_text :
  forall text, split (clean_gutenberg_text text) = split (gutenberg_body text).
Proof.
  intro text. rewrite clean_gutenberg_text_body. unfold sub_spaces, sub_newlines.
  now rewrite split_strip, split_sub_spaces_from, split_sub_newlines_from.
Qed.

Lemma all_space_split : forall s, all_space s = Str.is_empty (join (split s)) .
Proof.
  intro s. destruct (all_space s) eqn:H.
  - now rewrite (split_all_space s H).
  - destruct (split s) as [|w ws] eqn:E.
    + apply split_nil_all_space in E. congruence.
    + pose proof (split_wordlike s) as Hw. rewrite E in Hw.
      inversion Hw as [|? ? Hw1 _]; subst.
      destruct w as [|c w']; [discriminate Hw1|].
      now rewrite join_cons_char.
Qed.

(** [fit] reads its text through the whitespace-separated words only. *)
Lemma fit_split_ext :
  forall m t1 t2, split t1 = split t2 -> fit m t1 = fit m t2.
Proof.
  intros m t1 t2 H. unfold fit. cbv zeta.
  rewrite !blank_guard, !tokens_of_text, !all_space_split, H. reflexivity.
Qed.

(** X19. The whitespace tidying of [clean_gutenberg_text] changes no word:
    training on the cleaned text gives the same model as training on the
    part of the text that is kept, and when no start marker and no start
    pattern is found nothing is cut, so the model is the one trained on the
    raw text.  [preprocess_text_for_training] passes the text on as it is
    when cleaning is switched off. *)
Theorem gutenberg_cleanup_keeps_tokens :
  forall m text,
    _tokenize (_clean_text (clean_gutenberg_text text))
    = _tokenize (_clean_text (gutenberg_body text)) /\
    fit m (preprocess_text_for_training text true)
    = fit m (gutenberg_body text) /\
    fit m (preprocess_text_for_training text false) = fit m text /\
    preprocess_text_for_training text false = text /\
    preprocess_text_for_training text true = clean_gutenberg_text text /\
    (start_by_marker start_markers text = (-1)%Z ->
     start_by_pattern patterns text = (-1)%Z ->
     fit m (clean_gutenberg_text text) = fit m text).
Proof.
  intros m text.
  pose proof (split_clean_gutenberg_text text) as Hs.
  split; [now rewrite !tokens_of_text, Hs|].
  split; [now apply fit_split_ext|]. split; [reflexivity|].
  split; [reflexivity|]. split; [reflexivity|].
  intros H1 H2. rewrite (fit_split_ext m _ _ Hs).
  unfold gutenberg_body. rewrite H1. cbn [Z.eqb]. now rewrite H2.
Qed.

Lemma gutenberg_cleanup_keeps_tokens_witness :
  fit (init 1) (clean_gutenberg_text "  The   cat  sat ")
  = fit (init 1) "  The   cat  sat ".
Proof.
  apply (gutenberg_cleanup_keeps_tokens (init 1) "  The   cat  sat ");
    reflexivity.
Defined.

Lemma no_triple_newline_sub_newlines :
  forall s w, w <= 2 -> no_triple_newline w (sub_newlines_from w s) = true.
Proof.
  induction s as [|c r IH]; intros w Hw; simpl; [reflexivity|].
  destruct (Ascii.eqb c newline) eqn:Hc.
  - destruct (Nat.ltb_spec w 2) as [Hlt|Hge].
    + simpl. rewrite Hc. apply andb_true_intro. split.
      * now apply Nat.ltb_lt.
      * apply IH. lia.
    + now apply IH.
  - simpl. rewrite Hc. apply IH. lia.
Qed.

Lemma space_not_newline :
  forall c, Ascii.eqb c " " = true -> Ascii.eqb c newline = false.
Proof. intros c H. apply Ascii.eqb_eq in H. now subst. Qed.

Lemma no_triple_newline_sub_spaces :
  forall s b k,
    no_triple_newline k s = true -> (b = true -> k = 0) ->
    no_triple_newline k (sub_spaces_from b s) = true.
Proof.
  induction s as [|c r IH]; intros b k H Hb; simpl in *; [reflexivity|].
  destruct (Ascii.eqb c " ") eqn:Hc.
  - rewrite (space_not_newline c Hc) in H.
    destruct b.
    + rewrite (Hb eq_refl). now apply IH.
    + simpl. rewrite (space_not_newline c Hc). now apply IH.
  - simpl. destruct (Ascii.eqb c newline).
    + apply andb_prop in H as [H1 H2]. rewrite H1. simpl.
      apply IH; [exact H2|discriminate].
    + apply IH; [exact H|discriminate].
Qed.

Lemma no_double_space_sub_spaces :
  forall s b, no_double_space b (sub_spaces_from b s) = true.
Proof.
  induction s as [|c r IH]; intro b; simpl; [reflexivity|].
  destruct (Ascii.eqb c " ") eqn:Hc.
  - destruct b; [apply IH|]. simpl. rewrite Hc. simpl. apply IH.
  - simpl. rewrite Hc. apply IH.
Qed.

Lemma not_space_not_blank :
  forall c, isspace c = false -> Ascii.eqb c " " = false /\ Ascii.eqb c newline = false.
Proof.
  intros c H. split.
  - destruct (Ascii.eqb c " ") eqn:E; [|reflexivity].
    apply eqb_space_isspace in E. congruence.
  - destruct (Ascii.eqb c newline) eqn:E; [|reflexivity].
    apply eqb_newline_isspace in E. congruence.
Qed.

Lemma no_triple_newline_tail :
  forall c r k, no_triple_newline k (String c r) = true ->
    exists k', no_triple_newline k' r = true.
Proof.
  intros c r k H. simpl in H. destruct (Ascii.eqb c newline).
  - apply andb_prop in H as [_ H]. now exists (S k).
  - now exists 0.
Qed.

Lemma no_double_space_tail :
  forall c r b, no_double_space b (String c r) = true ->
    exists b', no_double_space b' r = true.
Proof.
  intros c r b H. simpl in H. destruct (Ascii.eqb c " ").
  - apply andb_prop in H as [_ H]. now exists true.
  - now exists false.
Qed.

Lemma no_triple_newline_lstrip :
  forall s k k',
    no_triple_newline k s = true -> no_triple_newline k' (lstrip s) = true.
Proof.
  induction s as [|c r IH]; intros k k' H; [reflexivity|].
  cbn [lstrip]. destruct (isspace c) eqn:Hc.
  - destruct (no_triple_newline_tail c r k H) as [k2 H2]. now apply (IH k2).
  - destruct (not_space_not_blank c Hc) as [_ Hn].
    simpl in *. now rewrite Hn in *.
Qed.

Lemma no_double_space_lstrip :
  forall s b b',
    no_double_space b s = true -> no_double_space b' (lstrip s) = true.
Proof.
  induction s as [|c r IH]; intros b b' H; [reflexivity|].
  cbn [lstrip]. destruct (isspace c) eqn:Hc.
  - destruct (no_double_space_tail c r b H) as [b2 H2]. now apply (IH b2).
  - destruct (not_space_not_blank c Hc) as [Hs _].
    simpl in *. now rewrite Hs in *.
Qed.

Lemma no_triple_newline_rstrip :
  forall s k,
    no_triple_newline k s = true -> no_triple_newline k (rstrip s) = true.
Proof.
  induction s as [|c r IH]; intros k H; [reflexivity|].
  cbn [rstrip]. simpl in H.
  destruct (rstrip r) as [|c' r'] eqn:Hr.
  - destruct (isspace c) eqn:Hc; [reflexivity|].
    destruct (not_space_not_blank c Hc) as [_ Hn]. simpl. now rewrite Hn.
  - cbn [no_triple_newline]. destruct (Ascii.eqb c newline).
    + apply andb_prop in H as [H1 H2]. rewrite H1. now apply IH.
    + now apply IH.
Qed.

Lemma no_double_space_rstrip :
  forall s b,
    no_double_space b s = true -> no_double_space b (rstrip s) = true.
Proof.
  induction s as [|c r IH]; intros b H; [reflexivity|].
  cbn [rstrip]. simpl in H.
  destruct (rstrip r) as [|c' r'] eqn:Hr.
  - destruct (isspace c) eqn:Hc; [reflexivity|].
    destruct (not_space_not_blank c Hc) as [Hs _]. simpl. now rewrite Hs.
  - cbn [no_double_space]. destruct (Ascii.eqb c " ").
    + apply andb_prop in H as [H1 H2]. rewrite H1. now apply IH.
    + now apply IH.
Qed.

Lemma length_sub_newlines_from :
  forall s w, String.length (sub_newlines_from w s) <= String.length s.
Proof.
  induction s as [|c r IH]; intro w; simpl; [lia|].
  destruct (Ascii.eqb c newline); [destruct (w <? 2)|]; simpl.
  - specialize (IH (S w)). lia.
  - specialize (IH w). lia.
  - specialize (IH 0). lia.
Qed.

Lemma length_sub_spaces_from :
  forall s b, String.length (sub_spaces_from b s) <= String.length s.
Proof.
  induction s as [|c r IH]; intro b; simpl; [lia|].
  destruct (Ascii.eqb c " "); [destruct b|]; simpl.
  - specialize (IH true). lia.
  - specialize (IH true). lia.
  - specialize (IH false). lia.
Qed.

Lemma length_lstrip : forall s, String.length (lstrip s) <= String.length s.
Proof.
  induction s as [|c r IH]; simpl; [lia|].
  destruct (isspace c); simpl; lia.
Qed.

Lemma length_rstrip : forall s, String.length (rstrip s) <= String.length s.
Proof.
  induction s as [|c r IH]; simpl; [lia|].
  destruct (rstrip r); [destruct (isspace c)|]; simpl in *; lia.
Qed.

Lemma length_substring :
  forall s n k, String.length (String.substring n k s) <= String.length s.
Proof.
  induction s as [|c r IH]; intros [|n] [|k]; simpl; try lia.
  - specialize (IH 0 k). lia.
  - specialize (IH n 0). lia.
  - specialize (IH n (S k)). lia.
Qed.

Lemma length_gutenberg_body :
  forall text, String.length (gutenberg_body text) <= String.length text.
Proof.
  intro text. unfold gutenberg_body. cbv zeta.
  destruct (_ && _); [apply length_substring|lia].
Qed.

(** X20. The text returned by [clean_gutenberg_text] is tidy and never
    longer than its input: it has no whitespace at either end, no two
    spaces in a row and no three newlines in a row. *)
Theorem clean_gutenberg_text_tidy :
  forall text,
    let out := clean_gutenberg_text text in
    strip out = out /\
    no_double_space false out = true /\
    no_triple_newline 0 out = true /\
    String.length out <= String.length text.
Proof.
  intros text out. subst out. rewrite clean_gutenberg_text_body.
  set (body := gutenberg_body text).
  split; [apply strip_idem|]. unfold strip. split; [|split].
  - apply (no_double_space_lstrip _ false), no_double_space_rstrip.
    apply no_double_space_sub_spaces.
  - apply (no_triple_newline_lstrip _ 0), no_triple_newline_rstrip.
    apply no_triple_newline_sub_spaces; [|discriminate].
    apply no_triple_newline_sub_newlines. lia.
  - pose proof (length_lstrip (rstrip (sub_spaces (sub_newlines body)))).
    pose proof (length_rstrip (sub_spaces (sub_newlines body))).
    pose proof (length_sub_spaces_from (sub_newlines body) false).
    pose proof (length_sub_newlines_from body 0).
    pose proof (length_gutenberg_body text).
    unfold sub_spaces, sub_newlines, body in *. lia.
Qed.

Lemma all_space_sub_newlines_from :
  forall s w, all_space (sub_newlines_from w s) = all_space s.
Proof.
  induction s as [|c r IH]; intro w; simpl; [reflexivity|].
  destruct (Ascii.eqb c newline) eqn:Hc.
  - rewrite (eqb_newline_isspace c Hc).
    destruct (w <? 2); [|apply IH]. simpl.
    rewrite (eqb_newline_isspace c Hc). apply IH.
  - simpl. now rewrite IH.
Qed.

Lemma all_space_sub_spaces_from :
  forall s b, all_space (sub_spaces_from b s) = all_space s.
Proof.
  induction s as [|c r IH]; intro b; simpl; [reflexivity|].
  destruct (Ascii.eqb c " ") eqn:Hc.
  - rewrite (eqb_space_isspace c Hc).
    destruct b; [apply IH|]. simpl.
    rewrite (eqb_space_isspace c Hc). apply IH.
  - simpl. now rewrite IH.
Qed.

Lemma all_space_substring :
  forall s n k, all_space s = true -> all_space (String.substring n k s) = true.
Proof.
  induction s as [|c r IH]; intros [|n] [|k] H; simpl in *; try reflexivity.
  - apply andb_prop in H as [Hc Hr]. rewrite Hc. now apply IH.
  - apply andb_prop in H as [_ Hr]. now apply IH.
  - apply andb_prop in H as [_ Hr]. now apply IH.
Qed.

(** X21. [clean_gutenberg_text] returns the empty string exactly when the
    part of the text it keeps holds whitespace only; in particular an empty
    or whitespace-only text gives the empty string, on which [fit] counts
    nothing. *)
Theorem clean_gutenberg_text_empty :
  forall text,
    (clean_gutenberg_text text = "" <-> all_space (gutenberg_body text) = true)
    /\ (all_space text = true ->
        clean_gutenberg_text text = "" /\
        forall m, counts (fit m (clean_gutenberg_text text)) = counts m).
Proof.
  intro text.
  assert (Hiff : clean_gutenberg_text text = ""
                 <-> all_space (gutenberg_body text) = true).
  { rewrite clean_gutenberg_text_body.
    rewrite <- (all_space_sub_newlines_from (gutenberg_body text) 0).
    rewrite <- (all_space_sub_spaces_from _ false).
    fold (sub_newlines (gutenberg_body text)).
    fold (sub_spaces (sub_newlines (gutenberg_body text))).
    rewrite <- is_empty_strip. split.
    - now intros ->.
    - apply is_empty_true. }
  split; [exact Hiff|]. intro H.
  assert (E : clean_gutenberg_text text = "").
  { apply Hiff. unfold gutenberg_body. cbv zeta.
    destruct (_ && _); [now apply all_space_substring|exact H]. }
  split; [exact E|]. intro m. rewrite E. reflexivity.
Qed.

Lemma clean_gutenberg_text_empty_witness :
  clean_gutenberg_text "   " = "".
Proof. apply (clean_gutenberg_text_empty "   "). reflexivity. Defined.

Lemma find_char_from_spec :
  forall c s start i,
    find_char_from c start i s = (-1)%Z \/
    ((Z.of_nat start <= find_char_from c start i s)%Z /\
     (Z.of_nat i <= find_char_from c start i s
      < Z.of_nat (i + String.length s))%Z /\
     String.get (Z.to_nat (find_char_from c start i s) - i) s = Some c).
Proof.
  intros c. induction s as [|a r IH]; intros start i; [now left|].
  cbn [find_char_from].
  destruct ((start <=? i) && Ascii.eqb a c) eqn:E.
  - right. apply andb_prop in E as [E1 E2].
    apply Nat.leb_le in E1. apply Ascii.eqb_eq in E2. subst a.
    rewrite Nat2Z.id, Nat.sub_diag. simpl. repeat split; lia.
  - destruct (IH start (S i)) as [H|[H1 [H2 H3]]]; [now left|right].
    simpl String.length. split; [exact H1|]. split; [lia|].
    replace (Z.to_nat (find_char_from c start (S i) r) - i)
      with (S (Z.to_nat (find_char_from c start (S i) r) - S i)) by lia.
    exact H3.
Qed.

Lemma rfind_char_from_spec :
  forall c s stop i,
    rfind_char_from c stop i s = (-1)%Z \/
    ((Z.of_nat i <= rfind_char_from c stop i s
      < Z.of_nat (i + String.length s))%Z /\
     (rfind_char_from c stop i s < Z.of_nat stop)%Z /\
     String.get (Z.to_nat (rfind_char_from c stop i s) - i) s = Some c).
Proof.
  intros c. induction s as [|a r IH]; intros stop i; [now left|].
  cbn [rfind_char_from]. destruct (Nat.ltb_spec i stop) as [Hlt|Hge];
    [|now left].
  cbv zeta. destruct (Z.eqb_spec (rfind_char_from c stop (S i) r) (-1)) as [E|E].
  - destruct (Ascii.eqb a c) eqn:Ea; [|now left]. right.
    apply Ascii.eqb_eq in Ea. subst a.
    rewrite Nat2Z.id, Nat.sub_diag. simpl. repeat split; lia.
  - destruct (IH stop (S i)) as [H|[H1 [H2 H3]]]; [contradiction|right].
    simpl String.length. split; [lia|]. split; [exact H2|].
    replace (Z.to_nat (rfind_char_from c stop (S i) r) - i)
      with (S (Z.to_nat (rfind_char_from c stop (S i) r) - S i)) by lia.
    exact H3.
Qed.

(** X22. A cut point that [clean_gutenberg_text] takes from a marker is
    always a newline of the text: the start index found through a start
    marker, when there is one, and the end index found through an end
    marker, when there is one, are positions inside the text that hold a
    newline; without an end marker the end index is the length of the
    text. *)
Theorem marker_cut_points :
  forall text,
    (start_by_marker start_markers text = (-1)%Z \/
     ((0 <= start_by_marker start_markers text
       < Z.of_nat (String.length text))%Z /\
      String.get (Z.to_nat (start_by_marker start_markers text)) text
      = Some newline)) /\
    (end_by_marker end_markers text = Z.of_nat (String.length text) \/
     end_by_marker end_markers text = (-1)%Z \/
     ((0 <= end_by_marker end_markers text < Z.of_nat (String.length text))%Z /\
      String.get (Z.to_nat (end_by_marker end_markers text)) text
      = Some newline)).
Proof.
  intro text. split.
  - generalize start_markers as markers.
    induction markers as [|marker rest IH]; [now left|].
    cbn [start_by_marker]. cbv zeta.
    destruct (negb (find marker (lower text) =? -1)%Z); [|exact IH].
    unfold find_char.
    destruct (find_char_from_spec newline text
                (Z.to_nat (find marker (lower text))) 0)
      as [H|[_ [H2 H3]]]; [now left|right].
    rewrite Nat.sub_0_r in H3. split; [simpl in H2; lia|exact H3].
  - generalize end_markers as markers.
    induction markers as [|marker rest IH]; [now left|].
    cbn [end_by_marker]. cbv zeta.
    destruct (negb (rfind marker (lower text) =? -1)%Z); [|exact IH].
    right. unfold rfind_char.
    destruct (rfind_char_from_spec newline text
                (Z.to_nat (rfind marker (lower text))) 0)
      as [H|[H1 [_ H3]]]; [now left|right].
    rewrite Nat.sub_0_r in H3. split; [simpl in H1; lia|exact H3].
Qed.

End GutenbergFacts.
